(** * WebRTC signaling relay: a model of [server/services/webrtcSignalingService.ts]

    The service keeps one process-wide directory of call rooms.  Every
    authenticated WebSocket has a [message] handler and a [close] handler;
    both are modelled here as functions from the service state to the new
    state and the list of observable actions (registry queries, frames
    written to sockets) they perform, in program order. *)

From stdpp Require Import base option list strings gmap fin_maps.

(** ** Data *)

(** The [data] member of an envelope is whatever [JSON.parse] produced for
    it; the service never inspects it. *)
#[local] Unset Elimination Schemes.
Inductive JSON :=
  | JNull
  | JBool (b : bool)
  | JNum (n : Z)
  | JStr (s : string)
  | JArr (items : list JSON)
  | JObj (members : list (string * JSON)).
#[local] Set Elimination Schemes.

(** [interface SignalingMessage], the shape [JSON.parse] is trusted to give
    ([const data: SignalingMessage = JSON.parse(message)]).  Nothing checks
    [type] against the five kinds of the interface, so here it is any string;
    the [switch] of [handleMessage] knows ["join"], ["offer"], ["answer"],
    ["ice-candidate"] and ["leave"].  [data?] is optional. *)
Record SignalingMessage := {
  msg_type : string;
  msg_callId : string;
  msg_userId : string;
  msg_data : option JSON
}.

(** [{ ...data, userId: u }] *)
Definition with_userId (data : SignalingMessage) (u : string) : SignalingMessage :=
  {| msg_type := msg_type data;
     msg_callId := msg_callId data;
     msg_userId := u;
     msg_data := msg_data data |}.

(** [WebSocket.readyState] *)
Inductive ReadyState := CONNECTING | OPEN | CLOSING | CLOSED.

Global Instance ReadyState_eq_dec : EqDecision ReadyState.
Proof. solve_decision. Defined.

(** A [WebSocket] object is known by its handle; the properties the service
    reads and writes on it live in the [sockets] store of the state. *)
Abbreviation WebSocket := nat.

Record Socket := {
  authenticatedUserId : string;     (* (ws as any).authenticatedUserId *)
  ws_callId : option string;        (* (ws as any).callId, undefined until a join succeeds *)
  readyState : ReadyState
}.

(** [interface CallRoom].  [participants] is a JS [Map]: keys are unique and
    [forEach] visits the entries in insertion order, so it is kept as a list
    of entries. *)
Record CallRoom := {
  room_callId : string;
  participants : list (string * WebSocket)
}.

(** The columns of a [video_calls] row that the service reads; both are
    nullable in the schema. *)
Record VideoCall := {
  initiatorId : option string;
  participantId : option string
}.

(** Frames the server writes ([JSON.stringify] of these objects). *)
Inductive ServerMessage :=
  | error (message : string)
  | joined (callId : string) (participantCount : nat)
  | user_joined (userId : string)
  | user_left (userId : string)
  | relayed (type : string) (data : option JSON) (fromUserId : string).

(** Observable actions of a handler. *)
Inductive Effect :=
  | getVideoCall_query (callId : string)
  | ws_send (ws : WebSocket) (message : ServerMessage)
  | ws_close (ws : WebSocket) (code : nat) (reason : string).

(** The state of a [WebRTCSignalingService] object together with the sockets
    it has accepted. *)
Record Service := {
  rooms : gmap string CallRoom;
  sockets : gmap nat Socket
}.

Definition initial : Service := {| rooms := ∅; sockets := ∅ |}.

(** ** Collaborators *)

(** What awaiting [videoCallService.getVideoCall(id)] gives: the promise
    rejects, or resolves to a row or to [undefined]. *)
Inductive Lookup :=
  | Rejected
  | Resolved (videoCall : option VideoCall).

(** The surroundings of the service: the call registry, the configured
    [SESSION_SECRET] and [jwt.verify] ([None]: it throws; [Some d]: the
    [userId] claim of the decoded token, if it has one). *)
Record Env := {
  getVideoCall : string → Lookup;
  SESSION_SECRET : option string;
  jwt_verify : string → string → option (option string)
}.

(** JS truthiness of a string. *)
Definition truthy (s : string) : bool := negb (bool_decide (s = ""%string)).

(** ** The JS [Map] operations used on [participants] *)

Definition Map_has (k : string) (m : list (string * WebSocket)) : bool :=
  bool_decide (k ∈ m.*1).

Definition Map_set (k : string) (v : WebSocket) (m : list (string * WebSocket))
  : list (string * WebSocket) :=
  if Map_has k m
  then (λ p : string * WebSocket, if bool_decide (p.1 = k) then (k, v) else p) <$> m
  else m ++ [(k, v)].

Definition Map_delete (k : string) (m : list (string * WebSocket))
  : list (string * WebSocket) :=
  filter (λ p : string * WebSocket, p.1 ≠ k) m.

(** ** The service *)

Definition set_rooms (st : Service) (r : gmap string CallRoom) : Service :=
  {| rooms := r; sockets := sockets st |}.

Definition set_participants (room : CallRoom) (p : list (string * WebSocket)) : CallRoom :=
  {| room_callId := room_callId room; participants := p |}.

(** [(ws as any).callId = callId] *)
Definition store_callId (callId : string) (s : Socket) : Socket :=
  {| authenticatedUserId := authenticatedUserId s;
     ws_callId := Some callId;
     readyState := readyState s |}.

Definition is_open (st : Service) (ws : WebSocket) : Prop :=
  readyState <$> sockets st !! ws = Some OPEN.

Global Instance is_open_dec st ws : Decision (is_open st ws).
Proof. unfold is_open. apply _. Defined.

(** [broadcastToRoom(callId, message, excludeUserId?)].  A missing
    [excludeUserId] is [undefined], which no key of the map equals. *)
Definition broadcastToRoom (st : Service) (callId : string)
    (message : ServerMessage) (excludeUserId : option string) : list Effect :=
  match rooms st !! callId with
  | None => []
  | Some room =>
      (λ p : string * WebSocket, ws_send p.2 message)
        <$> filter (λ p : string * WebSocket, Some p.1 ≠ excludeUserId ∧ is_open st p.2)
                   (participants room)
  end.

(** [handleJoin(ws, callId, userId)] *)
Definition handleJoin (st : Service) (ws : WebSocket) (callId userId : string)
  : Service * list Effect :=
  (* Get or create room *)
  let '(room, st1) :=
    match rooms st !! callId with
    | Some room => (room, st)
    | None =>
        let room := {| room_callId := callId; participants := [] |} in
        (room, set_rooms st (<[callId := room]> (rooms st)))
    end in
  if Map_has userId (participants room) then
    (st1, [ws_send ws (error "User already connected to this call")])
  else if bool_decide (2 ≤ length (participants room)) then
    (st1, [ws_send ws (error "Call is full")])
  else
    let room' := set_participants room (Map_set userId ws (participants room)) in
    let st2 := {| rooms := <[callId := room']> (rooms st1);
                  sockets := alter (store_callId callId) ws (sockets st1) |} in
    (st2,
     broadcastToRoom st2 callId (user_joined userId) (Some userId)
       ++ [ws_send ws (joined callId (length (participants room')))]).

(** [relaySignalingMessage(callId, fromUserId, { type, data })] *)
Definition relaySignalingMessage (st : Service) (callId fromUserId : string)
    (type : string) (data : option JSON) : Service * list Effect :=
  match rooms st !! callId with
  | None => (st, [])
  | Some _ =>
      (st, broadcastToRoom st callId (relayed type data fromUserId) (Some fromUserId))
  end.

(** [handleLeave(callId, userId)] *)
Definition handleLeave (st : Service) (callId userId : string)
  : Service * list Effect :=
  match rooms st !! callId with
  | None => (st, [])
  | Some room =>
      let room' := set_participants room (Map_delete userId (participants room)) in
      let st1 := set_rooms st (<[callId := room']> (rooms st)) in
      (* Notify other participants *)
      let out := broadcastToRoom st1 callId (user_left userId) None in
      (* Clean up empty rooms *)
      let st2 :=
        if bool_decide (length (participants room') = 0)
        then set_rooms st1 (delete callId (rooms st1))
        else st1 in
      (st2, out)
  end.

(** [handleDisconnect(ws)] *)
Definition handleDisconnect (st : Service) (ws : WebSocket) : Service * list Effect :=
  match sockets st !! ws with
  | None => (st, [])
  | Some sock =>
      match ws_callId sock with
      | Some callId =>
          if truthy callId && truthy (authenticatedUserId sock)
          then handleLeave st callId (authenticatedUserId sock)
          else (st, [])
      | None => (st, [])
      end
  end.

(** How a call of an async function ends: it returns, or the awaited promise
    rejects and the exception reaches the caller's [catch]. *)
Inductive Completion :=
  | Returns (r : Service * list Effect)
  | Throws (r : Service * list Effect).

Definition authorized (videoCall : VideoCall) (userId : string) : bool :=
  negb (bool_decide (initiatorId videoCall ≠ Some userId)
        && bool_decide (participantId videoCall ≠ Some userId)).

(** The [switch (type)] of [handleMessage]; it has no [default]. *)
Definition dispatch (st : Service) (ws : WebSocket) (message : SignalingMessage)
  : Service * list Effect :=
  let type := msg_type message in
  let callId := msg_callId message in
  let userId := msg_userId message in
  if bool_decide (type = "join"%string) then handleJoin st ws callId userId
  else if bool_decide (type = "offer"%string ∨ type = "answer"%string
                       ∨ type = "ice-candidate"%string)
  then relaySignalingMessage st callId userId type (msg_data message)
  else if bool_decide (type = "leave"%string) then handleLeave st callId userId
  else (st, []).

(** [handleMessage(ws, message)] *)
Definition handleMessage (env : Env) (st : Service) (ws : WebSocket)
    (message : SignalingMessage) : Completion :=
  let callId := msg_callId message in
  let userId := msg_userId message in
  (* Verify user has access to this call *)
  match getVideoCall env callId with
  | Rejected => Throws (st, [getVideoCall_query callId])
  | Resolved None =>
      Returns (st, [getVideoCall_query callId; ws_send ws (error "Video call not found")])
  | Resolved (Some videoCall) =>
      if negb (authorized videoCall userId) then
        Returns (st, [getVideoCall_query callId;
                      ws_send ws (error "Access denied to this call")])
      else
        let '(st', out) := dispatch st ws message in
        Returns (st', getVideoCall_query callId :: out)
  end.

(** The body of [ws.on('message', ...)].  [parsed] is the outcome of
    [JSON.parse(message)]: [None] when it throws.  [userId] is the identity
    the [connection] handler stored for this socket ([authResult.userId]).
    Only sockets that passed authentication have this handler; for any other
    handle there is nothing to run. *)
Definition on_message (env : Env) (st : Service) (ws : WebSocket)
    (parsed : option SignalingMessage) : Service * list Effect :=
  match sockets st !! ws with
  | None => (st, [])
  | Some sock =>
      let userId := authenticatedUserId sock in
      match parsed with
      | None => (st, [ws_send ws (error "Invalid message format")])
      | Some data =>
          match handleMessage env st ws (with_userId data userId) with
          | Returns r => r
          | Throws (st', out) =>
              (st', out ++ [ws_send ws (error "Invalid message format")])
          end
      end
  end.

(** [WebRTCSignalingService.authenticateWebSocket(token)] *)
Definition authenticateWebSocket (env : Env) (token : string) : option string :=
  match SESSION_SECRET env with
  | None => None
  | Some sessionSecret =>
      if negb (truthy sessionSecret) then None
      else
        match jwt_verify env token sessionSecret with
        | None => None
        | Some None => None
        | Some (Some userId) => if truthy userId then Some userId else None
        end
  end.

(** The body of [wss.on('connection', ...)]: [token] is
    [url.searchParams.get('token')].  A socket that passes gets its identity
    stored and its handlers attached. *)
Definition on_connection (env : Env) (st : Service) (ws : WebSocket)
    (token : option string) : Service * list Effect :=
  match token with
  | None => (st, [ws_close ws 1008 "Authentication required"])
  | Some token =>
      if negb (truthy token) then (st, [ws_close ws 1008 "Authentication required"])
      else
        match authenticateWebSocket env token with
        | None => (st, [ws_close ws 1008 "Authentication failed"])
        | Some userId =>
            ({| rooms := rooms st;
                sockets := <[ws := {| authenticatedUserId := userId;
                                      ws_callId := None;
                                      readyState := OPEN |}]> (sockets st) |},
             [])
        end
  end.

Definition set_readyState (r : ReadyState) (s : Socket) : Socket :=
  {| authenticatedUserId := authenticatedUserId s;
     ws_callId := ws_callId s;
     readyState := r |}.

(** ** Runs of the service

    What the event loop feeds the service: a new connection, a [message]
    event, the transport of a socket starting to close, and its [close]
    event.  The only [await] of a [message] handler is the registry lookup,
    and nothing before it touches the state, so the handler is one step,
    taken when the lookup is answered. *)
Inductive Event :=
  | connection (ws : WebSocket) (token : option string)
  | message (ws : WebSocket) (parsed : option SignalingMessage)
  | closing (ws : WebSocket)
  | close (ws : WebSocket).

Definition step (env : Env) (st : Service) (ev : Event) : Service * list Effect :=
  match ev with
  | connection ws token =>
      match sockets st !! ws with
      | Some _ => (st, [])            (* handles are fresh *)
      | None => on_connection env st ws token
      end
  | message ws parsed => on_message env st ws parsed
  | closing ws =>
      match sockets st !! ws with
      | Some sock =>
          if bool_decide (readyState sock = OPEN)
          then ({| rooms := rooms st;
                   sockets := <[ws := set_readyState CLOSING sock]> (sockets st) |}, [])
          else (st, [])
      | None => (st, [])
      end
  | close ws =>
      match sockets st !! ws with
      | Some sock =>
          if bool_decide (readyState sock = CLOSED) then (st, [])
          else
            handleDisconnect
              {| rooms := rooms st;
                 sockets := <[ws := set_readyState CLOSED sock]> (sockets st) |} ws
      | None => (st, [])
      end
  end.

(** A run: the registry and the other collaborators may answer differently
    at every event. *)
Fixpoint run (st : Service) (evs : list (Env * Event)) : Service * list Effect :=
  match evs with
  | [] => (st, [])
  | (env, ev) :: evs =>
      let '(st1, out1) := step env st ev in
      let '(st2, out2) := run st1 evs in
      (st2, out1 ++ out2)
  end.

Inductive reachable : Service → Prop :=
  | reachable_initial : reachable initial
  | reachable_step st env ev : reachable st → reachable (step env st ev).1.

(** States reached while the collaborators stay as they are. *)
Inductive reachable_in (env : Env) : Service → Prop :=
  | reachable_in_initial : reachable_in env initial
  | reachable_in_step st ev :
      reachable_in env st → reachable_in env (step env st ev).1.

(** Sequences of Session Room operations, applied directly. *)
Inductive RoomOp :=
  | op_join (ws : WebSocket) (callId userId : string)
  | op_leave (callId userId : string).

Definition apply_op (st : Service) (op : RoomOp) : Service * list Effect :=
  match op with
  | op_join ws callId userId => handleJoin st ws callId userId
  | op_leave callId userId => handleLeave st callId userId
  end.

Definition apply_ops (st : Service) (ops : list RoomOp) : Service :=
  foldl (λ st op, (apply_op st op).1) st ops.

(** ** What is observed of a state and of a run *)

(** The identities in the room of a call, in joining order; none when the
    directory has no room for it. *)
Definition occupants (st : Service) (callId : string) : list string :=
  match rooms st !! callId with
  | Some room => (participants room).*1
  | None => []
  end.

(** [(ws as any).callId] as the [close] handler reads it; [None] also for a
    socket the service does not know. *)
Definition callId_of (st : Service) (ws : WebSocket) : option string :=
  sockets st !! ws ≫= ws_callId.

(** The kinds [handleMessage] relays. *)
Definition negotiation (type : string) : Prop :=
  type = "offer"%string ∨ type = "answer"%string ∨ type = "ice-candidate"%string.

(** The five kinds of the [switch]. *)
Definition known_kind (type : string) : Prop :=
  type = "join"%string ∨ negotiation type ∨ type = "leave"%string.

(** The sockets a relay from [fromUserId] is written to: the occupants under
    another identity whose transport is open, in joining order. *)
Definition relay_targets (st : Service) (room : CallRoom) (fromUserId : string)
  : list WebSocket :=
  (filter (λ p : string * WebSocket, p.1 ≠ fromUserId ∧ is_open st p.2)
          (participants room)).*2.



(** No join of [ws] was acknowledged among [out]. *)
Definition never_joined (ws : WebSocket) (out : list Effect) : Prop :=
  ∀ callId n, ws_send ws (joined callId n) ∉ out.

(** Envelopes, and events, that differ at most in the [userId] member. *)
Definition same_envelope (d d' : SignalingMessage) : Prop :=
  msg_type d = msg_type d' ∧ msg_callId d = msg_callId d' ∧ msg_data d = msg_data d'.

Inductive same_event : Event → Event → Prop :=
  | same_envelopes ws d d' :
      same_envelope d d' → same_event (message ws (Some d)) (message ws (Some d'))
  | same_other ev : same_event ev ev.

(** ** Invariants *)

(** A room of the directory is filed under its own call, is not empty, has
    at most two entries and no identity twice. *)
Definition room_ok (callId : string) (room : CallRoom) : Prop :=
  room_callId room = callId
  ∧ participants room ≠ []
  ∧ length (participants room) ≤ 2
  ∧ NoDup (participants room).*1.

Definition rooms_ok (st : Service) : Prop := map_Forall room_ok (rooms st).

(** Every entry of a room is [identity ↦ a socket authenticated as that
    identity]. *)
Definition members_ok (st : Service) : Prop :=
  ∀ callId room userId ws,
    rooms st !! callId = Some room →
    (userId, ws) ∈ participants room →
    authenticatedUserId <$> sockets st !! ws = Some userId.

Definition consistent (st : Service) : Prop := rooms_ok st ∧ members_ok st.

(** Every occupant of every room is designated by the registry for the call
    of that room. *)
Definition designated (env : Env) (st : Service) : Prop :=
  ∀ callId room userId ws,
    rooms st !! callId = Some room →
    (userId, ws) ∈ participants room →
    ∃ videoCall, getVideoCall env callId = Resolved (Some videoCall)
                 ∧ authorized videoCall userId = true.

(** ** A concrete call

    Call [C1] designates [U1] and [U2]; tokens verify to the identity they
    spell. *)
Definition call_C1 : VideoCall :=
  {| initiatorId := Some "U1"%string; participantId := Some "U2"%string |}.

Definition registry_C1 : Env :=
  {| getVideoCall := λ id,
       if bool_decide (id = "C1"%string) then Resolved (Some call_C1) else Resolved None;
     SESSION_SECRET := Some "s3cret"%string;
     jwt_verify := λ token _, Some (Some token) |}.

(** A registry that knows no call. *)
Definition registry_empty : Env :=
  {| getVideoCall := λ _, Resolved None;
     SESSION_SECRET := SESSION_SECRET registry_C1;
     jwt_verify := jwt_verify registry_C1 |}.

Definition envelope (type callId : string) (data : option JSON) : SignalingMessage :=
  {| msg_type := type; msg_callId := callId; msg_userId := ""; msg_data := data |}.

(** [U1] connects and joins [C1]. *)
Definition U1_joined : list (Env * Event) :=
  [ (registry_C1, connection 1 (Some "U1"%string));
    (registry_C1, message 1 (Some (envelope "join" "C1" None))) ].

(** ... then [U2] connects and joins as well. *)
Definition both_joined : list (Env * Event) :=
  U1_joined ++
  [ (registry_C1, connection 2 (Some "U2"%string));
    (registry_C1, message 2 (Some (envelope "join" "C1" None))) ].

(** [U1] and [U2] are connected; only [U2] has joined [C1]. *)
Definition U2_joined : list (Env * Event) :=
  [ (registry_C1, connection 1 (Some "U1"%string));
    (registry_C1, connection 2 (Some "U2"%string));
    (registry_C1, message 2 (Some (envelope "join" "C1" None))) ].

(** A registry whose lookups fail. *)
Definition registry_down : Env :=
  {| getVideoCall := λ _, Rejected;
     SESSION_SECRET := SESSION_SECRET registry_C1;
     jwt_verify := jwt_verify registry_C1 |}.

(** ** More observations *)

(** The sockets of the occupants of a call whose transport is open, in
    joining order. *)
Definition open_sockets (st : Service) (callId : string) : list WebSocket :=
  match rooms st !! callId with
  | Some room => (filter (λ p : string * WebSocket, is_open st p.2) (participants room)).*2
  | None => []
  end.

(** The sockets held by the room of a call. *)
Definition room_sockets (st : Service) (callId : string) : list WebSocket :=
  match rooms st !! callId with
  | Some room => (participants room).*2
  | None => []
  end.

(** Identity [userId] occupies the room of [callId] through socket [ws]. *)
Definition occupies (st : Service) (callId userId : string) (ws : WebSocket) : Prop :=
  ∃ room, rooms st !! callId = Some room ∧ (userId, ws) ∈ participants room.

(** The actions a [message] handler can perform for envelope [m] (with the
    sender's stored identity in [msg_userId]) received on [ws] in state
    [st]: the lookup, an error or a join acknowledgement on [ws] itself, and
    a notification or the relayed envelope on the open socket of an occupant
    of the call under another identity. *)
Inductive written_by (st : Service) (ws : WebSocket) (m : SignalingMessage)
  : Effect → Prop :=
  | written_query : written_by st ws m (getVideoCall_query (msg_callId m))
  | written_error reason : written_by st ws m (ws_send ws (error reason))
  | written_joined n :
      msg_type m = "join"%string → n = 1 ∨ n = 2 →
      written_by st ws m (ws_send ws (joined (msg_callId m) n))
  | written_peer u w frame :
      u ≠ msg_userId m →
      occupies st (msg_callId m) u w →
      is_open st w →
      (msg_type m = "join"%string ∧ frame = user_joined (msg_userId m))
      ∨ (msg_type m = "leave"%string ∧ frame = user_left (msg_userId m))
      ∨ (negotiation (msg_type m)
         ∧ frame = relayed (msg_type m) (msg_data m) (msg_userId m)) →
      written_by st ws m (ws_send w frame).

(** The identity a notification or a relayed envelope names; errors and
    acknowledgements name none. *)
Definition frame_identity (frame : ServerMessage) : option string :=
  match frame with
  | user_joined userId | user_left userId | relayed _ _ userId => Some userId
  | error _ | joined _ _ => None
  end.

(** * Tokens: [server/services/authService.ts]

    [jsonwebtoken] is taken as given: [sign payload secret] makes a token and
    [verify token secret] throws ([None]) or returns the decoded payload.  A
    payload is a JSON object; its claims that matter here are strings. *)
Record Jwt := {
  sign : gmap string string → string → string;
  verify : string → string → option (gmap string string)
}.

(** The columns of a [users] row that [generateToken] reads. *)
Record User := {
  user_id : string;
  user_username : string;
  user_email : string;
  user_role : string
}.

(** [this.jwtSecret = process.env.SESSION_SECRET || 'your-secret-key'] *)
Definition jwtSecret (secret : option string) : string :=
  match secret with
  | Some s => if truthy s then s else "your-secret-key"%string
  | None => "your-secret-key"%string
  end.

(** [generateToken(user)]: the payload is
    [{ id, username, email, role }]. *)
Definition generateToken (jwt : Jwt) (secret : option string) (user : User) : string :=
  sign jwt
    (<["id"%string := user_id user]>
       (<["username"%string := user_username user]>
          (<["email"%string := user_email user]>
             (<["role"%string := user_role user]> ∅))))
    (jwtSecret secret).

(** [verifyToken(token)] *)
Definition verifyToken (jwt : Jwt) (secret : option string) (token : string)
  : string + gmap string string :=
  match verify jwt token (jwtSecret secret) with
  | Some decoded => inr decoded
  | None => inl "Invalid token"%string
  end.

(** The surroundings of the signaling service when tokens are verified by
    [jwt]: [authenticateWebSocket] reads [decoded.userId]. *)
Definition signaling_env (jwt : Jwt) (registry : string → Lookup)
    (secret : option string) : Env :=
  {| getVideoCall := registry;
     SESSION_SECRET := secret;
     jwt_verify := λ token s, (λ decoded, decoded !! "userId"%string) <$> verify jwt token s |}.

(** A token library for the examples: a token is one character followed by
    the [userId] claim of its payload, or empty if the payload has none. *)
Definition toy_jwt : Jwt :=
  {| sign := λ payload _,
       match payload !! "userId"%string with
       | Some u => String Ascii.zero u
       | None => ""%string
       end;
     verify := λ token _,
       match token with
       | String _ u => Some {[ "userId"%string := u ]}
       | EmptyString => Some ∅
       end |}.

(** * Calls: [server/services/videoCallService.ts] over the [video_calls] table

    The table is a map from the primary key [id] to the other columns.  A
    service function awaits the storage twice: it reads the row, checks it,
    and then issues an update that carries no condition on the status.
    Between the read and the update of one request the reads and updates of
    other requests can take place, so the two are separate steps below. *)

Inductive CallStatus := scheduled | active | ended | cancelled.

Global Instance CallStatus_eq_dec : EqDecision CallStatus.
Proof. solve_decision. Defined.

Inductive Purpose := consultation | mentorship | meeting | training.

(** A row of [video_calls]; timestamps are instants of the clock, the
    duration is in minutes. *)
Record VideoCallRow := {
  row_title : string;
  row_initiatorId : option string;
  row_participantId : option string;
  row_roomId : string;
  row_status : CallStatus;
  row_scheduledAt : option Z;
  row_startedAt : option Z;
  row_endedAt : option Z;
  row_duration : option Z;
  row_purpose : Purpose;
  row_notes : option string;
  row_createdAt : option Z
}.

(** What the signaling service reads of a row. *)
Definition signaling_view (row : VideoCallRow) : VideoCall :=
  {| initiatorId := row_initiatorId row; participantId := row_participantId row |}.

(** [storage.getVideoCall(id)] *)
Definition storage_getVideoCall (db : gmap string VideoCallRow) (id : string)
  : option VideoCallRow := db !! id.

(** [storage.startVideoCall(id)]:
    [update ... set status = 'active', startedAt = now where id = ... returning]. *)
Definition storage_startVideoCall (now : Z) (id : string) (db : gmap string VideoCallRow)
  : gmap string VideoCallRow * option VideoCallRow :=
  match db !! id with
  | Some row =>
      let row' := {| row_title := row_title row;
                     row_initiatorId := row_initiatorId row;
                     row_participantId := row_participantId row;
                     row_roomId := row_roomId row;
                     row_status := active;
                     row_scheduledAt := row_scheduledAt row;
                     row_startedAt := Some now;
                     row_endedAt := row_endedAt row;
                     row_duration := row_duration row;
                     row_purpose := row_purpose row;
                     row_notes := row_notes row;
                     row_createdAt := row_createdAt row |} in
      (<[id := row']> db, Some row')
  | None => (db, None)
  end.

(** [storage.endVideoCall(id, duration, notes)].  A member of the [set]
    object that is [undefined] (here: no [notes]) is not written. *)
Definition storage_endVideoCall (now : Z) (id : string) (duration : Z)
    (notes : option string) (db : gmap string VideoCallRow)
  : gmap string VideoCallRow * option VideoCallRow :=
  match db !! id with
  | Some row =>
      let row' := {| row_title := row_title row;
                     row_initiatorId := row_initiatorId row;
                     row_participantId := row_participantId row;
                     row_roomId := row_roomId row;
                     row_status := ended;
                     row_scheduledAt := row_scheduledAt row;
                     row_startedAt := row_startedAt row;
                     row_endedAt := Some now;
                     row_duration := Some duration;
                     row_purpose := row_purpose row;
                     row_notes := match notes with
                                  | Some n => Some n
                                  | None => row_notes row
                                  end;
                     row_createdAt := row_createdAt row |} in
      (<[id := row']> db, Some row')
  | None => (db, None)
  end.

(** [storage.updateVideoCallStatus(id, status)] *)
Definition storage_updateVideoCallStatus (id : string) (status : CallStatus)
    (db : gmap string VideoCallRow)
  : gmap string VideoCallRow * option VideoCallRow :=
  match db !! id with
  | Some row =>
      let row' := {| row_title := row_title row;
                     row_initiatorId := row_initiatorId row;
                     row_participantId := row_participantId row;
                     row_roomId := row_roomId row;
                     row_status := status;
                     row_scheduledAt := row_scheduledAt row;
                     row_startedAt := row_startedAt row;
                     row_endedAt := row_endedAt row;
                     row_duration := row_duration row;
                     row_purpose := row_purpose row;
                     row_notes := row_notes row;
                     row_createdAt := row_createdAt row |} in
      (<[id := row']> db, Some row')
  | None => (db, None)
  end.

(** How a service call ends: [throw new Error(message)], or a value. *)
Inductive Outcome (A : Type) :=
  | Threw (message : string)
  | Gave (a : A).
Arguments Threw {A} message.
Arguments Gave {A} a.

(** [startCall(id, userId)] up to its second [await]: the row read by
    [storage.getVideoCall] and the checks made on it.  [Some reason]: it
    throws; [None]: it goes on to [storage.startVideoCall(id)]. *)
Definition startCall_checks (db : gmap string VideoCallRow) (id userId : string)
  : option string :=
  match storage_getVideoCall db id with
  | None => Some "Video call not found"%string
  | Some videoCall =>
      (* Only initiator or participant can start the call *)
      if bool_decide (row_initiatorId videoCall ≠ Some userId)
         && bool_decide (row_participantId videoCall ≠ Some userId)
      then Some "Unauthorized to start this call"%string
      else if bool_decide (row_status videoCall ≠ scheduled)
      then Some "Call is not in scheduled status"%string
      else None
  end.

(** [endCall(id, userId, duration, notes)] up to its second [await]. *)
Definition endCall_checks (db : gmap string VideoCallRow) (id userId : string)
  : option string :=
  match storage_getVideoCall db id with
  | None => Some "Video call not found"%string
  | Some videoCall =>
      (* Only initiator or participant can end the call *)
      if bool_decide (row_initiatorId videoCall ≠ Some userId)
         && bool_decide (row_participantId videoCall ≠ Some userId)
      then Some "Unauthorized to end this call"%string
      else if bool_decide (row_status videoCall ≠ active)
      then Some "Call is not active"%string
      else None
  end.

(** [cancelCall(id, userId)] up to its second [await]. *)
Definition cancelCall_checks (db : gmap string VideoCallRow) (id userId : string)
  : option string :=
  match storage_getVideoCall db id with
  | None => Some "Video call not found"%string
  | Some videoCall =>
      (* Only initiator can cancel the call *)
      if bool_decide (row_initiatorId videoCall ≠ Some userId)
      then Some "Only the initiator can cancel the call"%string
      else if bool_decide (row_status videoCall ≠ scheduled)
      then Some "Only scheduled calls can be cancelled"%string
      else None
  end.

(** A request to the service, as the routes [PUT /api/video-calls/:id/start],
    [.../end] and [.../cancel] make it for the authenticated user. *)
Inductive CallRequest :=
  | start_request (id userId : string)
  | end_request (id userId : string) (duration : Z) (notes : option string)
  | cancel_request (id userId : string).

Definition request_id (req : CallRequest) : string :=
  match req with
  | start_request id _ | end_request id _ _ _ | cancel_request id _ => id
  end.

Definition request_user (req : CallRequest) : string :=
  match req with
  | start_request _ u | end_request _ u _ _ | cancel_request _ u => u
  end.

(** The first half of a request: read and checks. *)
Definition checks (db : gmap string VideoCallRow) (req : CallRequest) : option string :=
  match req with
  | start_request id userId => startCall_checks db id userId
  | end_request id userId _ _ => endCall_checks db id userId
  | cancel_request id userId => cancelCall_checks db id userId
  end.

(** The second half: the update the request issues, with the [new Date()]
    taken when it was issued. *)
Definition update (now : Z) (req : CallRequest) (db : gmap string VideoCallRow)
  : gmap string VideoCallRow * option VideoCallRow :=
  match req with
  | start_request id _ => storage_startVideoCall now id db
  | end_request id _ duration notes => storage_endVideoCall now id duration notes db
  | cancel_request id _ => storage_updateVideoCallStatus id cancelled db
  end.

(** The service with requests in flight: the table, and the updates that
    were issued and have not reached the table yet. *)
Record CallDesk := {
  table : gmap string VideoCallRow;
  in_flight : list (Z * CallRequest)
}.

(** No request in flight. *)
Definition calm (db : gmap string VideoCallRow) : CallDesk :=
  {| table := db; in_flight := [] |}.

(** A request's row is read and checked (at clock reading [now] it throws or
    issues its update), or the [k]-th update in flight reaches the table and
    its request returns the updated row.  The storage can also reject: a
    read that fails makes its request throw before anything is issued, and
    an update that fails makes its request throw with the table as it is. *)
Inductive CallEvent :=
  | request_arrives (now : Z) (req : CallRequest)
  | read_fails (reason : string)
  | update_lands (k : nat)
  | update_fails (k : nat) (reason : string).

Definition call_step (s : CallDesk) (ev : CallEvent)
  : CallDesk * option (Outcome (option VideoCallRow)) :=
  match ev with
  | request_arrives now req =>
      match checks (table s) req with
      | Some reason => (s, Some (Threw reason))
      | None => ({| table := table s; in_flight := in_flight s ++ [(now, req)] |}, None)
      end
  | read_fails reason => (s, Some (Threw reason))
  | update_lands k =>
      match in_flight s !! k with
      | Some (now, req) =>
          let '(db', r) := update now req (table s) in
          ({| table := db'; in_flight := delete k (in_flight s) |}, Some (Gave r))
      | None => (s, None)
      end
  | update_fails k reason =>
      match in_flight s !! k with
      | Some _ =>
          ({| table := table s; in_flight := delete k (in_flight s) |},
           Some (Threw reason))
      | None => (s, None)
      end
  end.

Definition call_run (s : CallDesk) (evs : list CallEvent) : CallDesk :=
  foldl (λ s ev, (call_step s ev).1) s evs.

(** Requests that are served one at a time: the update of each lands before
    the next request is read. *)
Definition one_at_a_time (reqs : list (Z * CallRequest)) : list CallEvent :=
  reqs ≫= λ r, [request_arrives r.1 r.2; update_lands 0].

(** The moves of the status of a call. *)
Inductive transition : CallStatus → CallStatus → Prop :=
  | transition_start : transition scheduled active
  | transition_end : transition active ended
  | transition_cancel : transition scheduled cancelled.

(** Everything of a row but its status, its start and end instants, its
    duration and its notes. *)
Definition same_call (row row' : VideoCallRow) : Prop :=
  row_title row' = row_title row
  ∧ row_initiatorId row' = row_initiatorId row
  ∧ row_participantId row' = row_participantId row
  ∧ row_roomId row' = row_roomId row
  ∧ row_scheduledAt row' = row_scheduledAt row
  ∧ row_purpose row' = row_purpose row
  ∧ row_createdAt row' = row_createdAt row.

(** The row designates the user as initiator or participant. *)
Definition designates (row : VideoCallRow) (userId : string) : Prop :=
  row_initiatorId row = Some userId ∨ row_participantId row = Some userId.

(** The instants and the duration of a row fit its status. *)
Definition coherent (row : VideoCallRow) : Prop :=
  match row_status row with
  | scheduled | cancelled =>
      row_startedAt row = None ∧ row_endedAt row = None ∧ row_duration row = None
  | active =>
      is_Some (row_startedAt row) ∧ row_endedAt row = None ∧ row_duration row = None
  | ended =>
      is_Some (row_startedAt row) ∧ is_Some (row_endedAt row)
      ∧ is_Some (row_duration row)
  end.

(** What is left of [coherent] when requests are in flight together. *)
Definition settled (row : VideoCallRow) : Prop :=
  match row_status row with
  | scheduled =>
      row_startedAt row = None ∧ row_endedAt row = None ∧ row_duration row = None
  | active => is_Some (row_startedAt row)
  | ended =>
      is_Some (row_startedAt row) ∧ is_Some (row_endedAt row)
      ∧ is_Some (row_duration row)
  | cancelled => True
  end.

(** The registry the signaling service sees when [getVideoCall] reads the
    table. *)
Definition registry_of (db : gmap string VideoCallRow) : string → Lookup :=
  λ id, Resolved (signaling_view <$> storage_getVideoCall db id).

(** A table with the call [C1] of [U1] and [U2], as scheduled. *)
Definition row_C1 : VideoCallRow :=
  {| row_title := "Ward round"; row_initiatorId := Some "U1"%string;
     row_participantId := Some "U2"%string; row_roomId := "r-1";
     row_status := scheduled; row_scheduledAt := Some 100%Z;
     row_startedAt := None; row_endedAt := None; row_duration := None;
     row_purpose := consultation; row_notes := None; row_createdAt := Some 90%Z |}.

Definition table_C1 : gmap string VideoCallRow := {[ "C1"%string := row_C1 ]}.

(** The call [C1] after it was started and ended. *)
Definition table_C1_ended : gmap string VideoCallRow :=
  table (call_run (calm table_C1)
           (one_at_a_time [ (200%Z, start_request "C1" "U2");
                            (260%Z, end_request "C1" "U1" 60 None) ])).

Definition env_of_table (db : gmap string VideoCallRow) : Env :=
  {| getVideoCall := registry_of db;
     SESSION_SECRET := SESSION_SECRET registry_C1;
     jwt_verify := jwt_verify registry_C1 |}.

(** The status the update of a request writes. *)
Definition written_status (req : CallRequest) : CallStatus :=
  match req with
  | start_request _ _ => active
  | end_request _ _ _ _ => ended
  | cancel_request _ _ => cancelled
  end.

(** The status a request's checks ask of the row they read. *)
Definition required_status (req : CallRequest) : CallStatus :=
  match req with
  | start_request _ _ | cancel_request _ _ => scheduled
  | end_request _ _ _ _ => active
  end.

(** ** Facts about the [Map] operations *)

Section map_ops.
Implicit Types (k : string) (v : WebSocket) (m : list (string * WebSocket)).

Lemma Map_has_true k m : Map_has k m = true ↔ k ∈ m.*1.
Proof. unfold Map_has. apply bool_decide_eq_true. Qed.

Lemma Map_has_false k m : Map_has k m = false ↔ k ∉ m.*1.
Proof. unfold Map_has. apply bool_decide_eq_false. Qed.

Lemma Map_set_fresh k v m : k ∉ m.*1 → Map_set k v m = m ++ [(k, v)].
Proof. intros H. unfold Map_set. by rewrite (proj2 (Map_has_false k m) H). Qed.

Lemma Map_delete_length k m : length (Map_delete k m) ≤ length m.
Proof. apply length_filter. Qed.

Lemma Map_delete_keys k m : (Map_delete k m).*1 = filter (λ x, x ≠ k) m.*1.
Proof.
  unfold Map_delete. induction m as [|[k' v'] m IH]; [done|].
  rewrite fmap_cons, !filter_cons; simpl.
  destruct (decide (k' ≠ k)); simpl; [f_equal|]; exact IH.
Qed.

Lemma Map_delete_NoDup k m : NoDup m.*1 → NoDup (Map_delete k m).*1.
Proof. rewrite Map_delete_keys. apply NoDup_filter. Qed.

Lemma Map_delete_gone k m : k ∉ (Map_delete k m).*1.
Proof. rewrite Map_delete_keys, list_elem_of_filter. tauto. Qed.

Lemma Map_delete_absent k m : k ∉ m.*1 → Map_delete k m = m.
Proof.
  unfold Map_delete. induction m as [|[k' v'] m IH]; [done|].
  rewrite fmap_cons, not_elem_of_cons; simpl. intros [Hne Hm].
  rewrite filter_cons; simpl. destruct (decide (k' ≠ k)) as [?|n]; [|destruct n; congruence].
  f_equal. by apply IH.
Qed.

Lemma Map_delete_elem k m p : p ∈ Map_delete k m → p ∈ m.
Proof. unfold Map_delete. rewrite list_elem_of_filter. tauto. Qed.

End map_ops.

(** ** The handlers, case by case *)

Lemma handleJoin_present st ws callId userId room :
  rooms st !! callId = Some room →
  userId ∈ (participants room).*1 →
  handleJoin st ws callId userId
  = (st, [ws_send ws (error "User already connected to this call")]).
Proof.
  intros Hroom Hin. unfold handleJoin. rewrite Hroom.
  by rewrite (proj2 (Map_has_true _ _) Hin).
Qed.

Lemma handleJoin_full st ws callId userId room :
  rooms st !! callId = Some room →
  userId ∉ (participants room).*1 →
  2 ≤ length (participants room) →
  handleJoin st ws callId userId = (st, [ws_send ws (error "Call is full")]).
Proof.
  intros Hroom Hin Hlen. unfold handleJoin. rewrite Hroom.
  rewrite (proj2 (Map_has_false _ _) Hin).
  by rewrite bool_decide_eq_true_2.
Qed.

Lemma handleJoin_admit st ws callId userId room :
  rooms st !! callId = Some room →
  userId ∉ (participants room).*1 →
  length (participants room) < 2 →
  let room' := set_participants room (participants room ++ [(userId, ws)]) in
  let st' := {| rooms := <[callId := room']> (rooms st);
                sockets := alter (store_callId callId) ws (sockets st) |} in
  handleJoin st ws callId userId
  = (st', broadcastToRoom st' callId (user_joined userId) (Some userId)
            ++ [ws_send ws (joined callId (S (length (participants room))))]).
Proof.
  intros Hroom Hin Hlen. unfold handleJoin. rewrite Hroom.
  rewrite (proj2 (Map_has_false _ _) Hin).
  rewrite bool_decide_eq_false_2 by lia.
  rewrite Map_set_fresh by done. simpl.
  rewrite length_app. simpl. by rewrite Nat.add_1_r.
Qed.

Lemma handleJoin_create st ws callId userId :
  rooms st !! callId = None →
  handleJoin st ws callId userId
  = ({| rooms := <[callId := {| room_callId := callId;
                                participants := [(userId, ws)] |}]> (rooms st);
        sockets := alter (store_callId callId) ws (sockets st) |},
     [ws_send ws (joined callId 1)]).
Proof.
  intros Hroom. unfold handleJoin. rewrite Hroom. simpl.
  change (Map_set userId ws []) with [(userId, ws)].
  unfold broadcastToRoom. simpl. rewrite insert_insert_eq, lookup_insert_eq. simpl.
  rewrite filter_cons. simpl.
  destruct (decide _) as [[Hne _]|_]; [congruence|done].
Qed.

Lemma handleLeave_no_room st callId userId :
  rooms st !! callId = None → handleLeave st callId userId = (st, []).
Proof. intros Hroom. unfold handleLeave. by rewrite Hroom. Qed.

Lemma handleJoin_rooms_ok st ws callId userId :
  rooms_ok st → rooms_ok (handleJoin st ws callId userId).1.
Proof.
  intros Hok. destruct (rooms st !! callId) as [room|] eqn:Hroom.
  - destruct (Hok _ _ Hroom) as (Hid & Hne & Hlen & Hnd).
    destruct (decide (userId ∈ (participants room).*1)) as [Hin|Hin].
    { by rewrite (handleJoin_present _ _ _ _ _ Hroom Hin). }
    destruct (decide (2 ≤ length (participants room))) as [Hfull|Hfree].
    { by rewrite (handleJoin_full _ _ _ _ _ Hroom Hin Hfull). }
    rewrite (handleJoin_admit _ _ _ _ room) by (done || lia). simpl.
    apply map_Forall_insert_2; [|done].
    repeat split; simpl; [done|by destruct (participants room)| |].
    + rewrite length_app. simpl. lia.
    + rewrite fmap_app. simpl. apply NoDup_app. repeat split; [done| |apply NoDup_singleton].
      intros x Hx ->%list_elem_of_singleton. done.
  - rewrite handleJoin_create by done. simpl.
    apply map_Forall_insert_2; [|done].
    repeat split; simpl; [done|lia|apply NoDup_singleton].
Qed.

Lemma handleLeave_rooms_ok st callId userId :
  rooms_ok st → rooms_ok (handleLeave st callId userId).1.
Proof.
  intros Hok. unfold handleLeave.
  destruct (rooms st !! callId) as [room|] eqn:Hroom; [|done].
  destruct (Hok _ _ Hroom) as (Hid & Hne & Hlen & Hnd).
  case_bool_decide as Hempty; simpl.
  - rewrite delete_insert_eq. by apply map_Forall_delete.
  - apply map_Forall_insert_2; [|done].
    repeat split; simpl; [done| | |by apply Map_delete_NoDup].
    + intros Heq. by rewrite Heq in Hempty.
    + pose proof (Map_delete_length userId (participants room)). lia.
Qed.

Lemma alter_identity (f : Socket → Socket) (s : gmap nat Socket) (ws w : WebSocket) :
  (∀ x, authenticatedUserId (f x) = authenticatedUserId x) →
  authenticatedUserId <$> alter f ws s !! w = authenticatedUserId <$> s !! w.
Proof.
  intros Hf. rewrite lookup_alter. case_decide as Heq; [|done].
  subst w. destruct (s !! ws); simpl; [|done]. by rewrite Hf.
Qed.

Lemma handleJoin_members_ok st ws callId userId :
  authenticatedUserId <$> sockets st !! ws = Some userId →
  members_ok st → members_ok (handleJoin st ws callId userId).1.
Proof.
  intros Hws Hok. destruct (rooms st !! callId) as [room|] eqn:Hroom.
  - destruct (decide (userId ∈ (participants room).*1)) as [Hin|Hin].
    { by rewrite (handleJoin_present _ _ _ _ _ Hroom Hin). }
    destruct (decide (2 ≤ length (participants room))) as [Hfull|Hfree].
    { by rewrite (handleJoin_full _ _ _ _ _ Hroom Hin Hfull). }
    rewrite (handleJoin_admit _ _ _ _ room) by (done || lia). simpl.
    intros c r u w. simpl. rewrite alter_identity by done.
    rewrite lookup_insert. case_decide as Heq.
    + intros [= <-]. simpl. rewrite elem_of_app, list_elem_of_singleton.
      intros [Hold|[= -> ->]]; [by eapply Hok|done].
    + apply Hok.
  - rewrite handleJoin_create by done. simpl.
    intros c r u w. simpl. rewrite alter_identity by done.
    rewrite lookup_insert. case_decide as Heq.
    + intros [= <-]. simpl. by intros [= -> ->]%list_elem_of_singleton.
    + apply Hok.
Qed.

Lemma handleLeave_sockets st callId userId :
  sockets (handleLeave st callId userId).1 = sockets st.
Proof.
  unfold handleLeave. destruct (rooms st !! callId); [|done].
  by case_bool_decide.
Qed.

Lemma handleLeave_members_ok st callId userId :
  members_ok st → members_ok (handleLeave st callId userId).1.
Proof.
  intros Hok c r u w. rewrite handleLeave_sockets. revert c r u w.
  unfold handleLeave. destruct (rooms st !! callId) as [room|] eqn:Hroom; [|apply Hok].
  intros c r u w. case_bool_decide as Hempty; simpl.
  - rewrite delete_insert_eq, lookup_delete. case_decide; [done|apply Hok].
  - rewrite lookup_insert. case_decide as Heq; [|apply Hok].
    intros [= <-]. simpl. intros Hin%Map_delete_elem. by eapply Hok.
Qed.

Lemma relaySignalingMessage_state st callId fromUserId type data :
  (relaySignalingMessage st callId fromUserId type data).1 = st.
Proof. unfold relaySignalingMessage. by destruct (rooms st !! callId). Qed.

Lemma dispatch_consistent st ws m :
  authenticatedUserId <$> sockets st !! ws = Some (msg_userId m) →
  consistent st → consistent (dispatch st ws m).1.
Proof.
  intros Hws [Hr Hm]. unfold dispatch.
  repeat case_bool_decide.
  - split; [by apply handleJoin_rooms_ok|by apply handleJoin_members_ok].
  - by rewrite relaySignalingMessage_state.
  - split; [by apply handleLeave_rooms_ok|by apply handleLeave_members_ok].
  - done.
Qed.

Lemma on_message_consistent env st ws parsed :
  consistent st → consistent (on_message env st ws parsed).1.
Proof.
  intros Hok. unfold on_message.
  destruct (sockets st !! ws) as [sock|] eqn:Hws; [|done].
  destruct parsed as [data|]; [|done].
  unfold handleMessage. simpl.
  destruct (getVideoCall env _) as [|[videoCall|]]; [done| |done].
  destruct (authorized _ _); simpl; [|done].
  pose proof (dispatch_consistent st ws
                (with_userId data (authenticatedUserId sock))) as Hd.
  destruct (dispatch _ _ _) as [st' out]. simpl in *. apply Hd; [|done].
  by rewrite Hws.
Qed.

Lemma handleDisconnect_consistent st ws :
  consistent st → consistent (handleDisconnect st ws).1.
Proof.
  intros [Hr Hm]. unfold handleDisconnect.
  destruct (sockets st !! ws) as [sock|]; [|done].
  destruct (ws_callId sock) as [callId|]; [|done].
  destruct (_ && _); [|done].
  split; [by apply handleLeave_rooms_ok|by apply handleLeave_members_ok].
Qed.

(** Changing how a socket is stored without touching identities keeps the
    rooms consistent. *)
Lemma consistent_sockets st (s : gmap nat Socket) :
  (∀ w u, authenticatedUserId <$> sockets st !! w = Some u →
          authenticatedUserId <$> s !! w = Some u) →
  consistent st → consistent {| rooms := rooms st; sockets := s |}.
Proof.
  intros Hs [Hr Hm]. split; [done|].
  intros c r u w Hroom Hin. simpl in *. apply Hs. by eapply Hm.
Qed.

Lemma step_consistent env st ev :
  consistent st → consistent (step env st ev).1.
Proof.
  intros Hok. destruct ev as [ws token|ws parsed|ws|ws]; simpl.
  - destruct (sockets st !! ws) as [sock|] eqn:Hws; [done|].
    unfold on_connection. destruct token as [token|]; [|done].
    destruct (negb _); [done|]. destruct (authenticateWebSocket _ _); [|done].
    simpl. apply consistent_sockets; [|done].
    intros w u. rewrite lookup_insert. case_decide as Heq; [|done].
    subst w. by rewrite Hws.
  - by apply on_message_consistent.
  - destruct (sockets st !! ws) as [sock|] eqn:Hws; [|done].
    case_bool_decide; [|done]. simpl. apply consistent_sockets; [|done].
    intros w u. rewrite lookup_insert. case_decide as Heq; [|done].
    subst w. by rewrite Hws.
  - destruct (sockets st !! ws) as [sock|] eqn:Hws; [|done].
    case_bool_decide; [done|]. apply handleDisconnect_consistent.
    apply consistent_sockets; [|done].
    intros w u. rewrite lookup_insert. case_decide as Heq; [|done].
    subst w. by rewrite Hws.
Qed.

Lemma initial_consistent : consistent initial.
Proof.
  split; [apply map_Forall_empty|].
  intros c r u w. unfold initial. simpl. by rewrite lookup_empty.
Qed.

Lemma reachable_consistent st : reachable st → consistent st.
Proof.
  induction 1 as [|st env ev _ IH]; [apply initial_consistent|].
  by apply step_consistent.
Qed.

Lemma reachable_run st evs : reachable st → reachable (run st evs).1.
Proof.
  revert st. induction evs as [|[env ev] evs IH]; intros st Hst; [done|].
  simpl. pose proof (reachable_step st env ev Hst) as H1.
  destruct (step env st ev) as [st1 out1]. specialize (IH st1 H1).
  destruct (run st1 evs) as [st2 out2]. done.
Qed.

Lemma apply_ops_rooms_ok st ops : rooms_ok st → rooms_ok (apply_ops st ops).
Proof.
  revert st. induction ops as [|op ops IH]; intros st Hok; [done|].
  simpl. apply IH. destruct op; [by apply handleJoin_rooms_ok|by apply handleLeave_rooms_ok].
Qed.

(** ** The model on the call of two *)

(** [U1] joins, [U2] joins, [U1] sends an offer, the socket of [U2] closes,
    [U1] leaves: the frames written, in order, and the directory at the
    end. *)
Example two_party_call :
  let evs := both_joined ++
       [ (registry_C1, message 1 (Some (envelope "offer" "C1" (Some (JStr "O")))));
         (registry_C1, close 2);
         (registry_C1, message 1 (Some (envelope "leave" "C1" None))) ] in
  (run initial evs).2
  = [ getVideoCall_query "C1"; ws_send 1 (joined "C1" 1);
      getVideoCall_query "C1"; ws_send 1 (user_joined "U2"); ws_send 2 (joined "C1" 2);
      getVideoCall_query "C1"; ws_send 2 (relayed "offer" (Some (JStr "O")) "U1");
      ws_send 1 (user_left "U2");
      getVideoCall_query "C1" ]
  ∧ rooms (run initial evs).1 = ∅.
Proof. vm_compute. split; reflexivity. Qed.

(** A connection without a token, and one whose token does not verify, are
    closed with code 1008 and never reach the handlers. *)
Example rejected_connections :
  let no_jwt := {| getVideoCall := getVideoCall registry_C1;
                   SESSION_SECRET := SESSION_SECRET registry_C1;
                   jwt_verify := λ _ _, None |} in
  run initial [ (registry_C1, connection 1 None);
                (no_jwt, connection 2 (Some "forged"%string));
                (registry_C1, message 2 (Some (envelope "join" "C1" None))) ]
  = (initial, [ ws_close 1 1008 "Authentication required";
                ws_close 2 1008 "Authentication failed" ]).
Proof. vm_compute. reflexivity. Qed.

(** ** Capacity *)

Lemma occupants_ok st callId :
  rooms_ok st → length (occupants st callId) ≤ 2 ∧ NoDup (occupants st callId).
Proof.
  intros Hok. unfold occupants.
  destruct (rooms st !! callId) as [room|] eqn:Hroom.
  - destruct (Hok _ _ Hroom) as (_ & _ & Hlen & Hnd).
    by rewrite length_fmap.
  - split; [simpl; lia|apply NoDup_nil_2].
Qed.

(** C1.  Whatever joins and leaves have been applied to the rooms, the room
    of a call holds at most two identities and no identity twice; and when it
    holds two, a join by any other identity is answered with "Call is full"
    on the joiner's socket only and changes nothing.  The bounds hold as well
    in every state the service reaches through its socket events. *)
Theorem capacity_invariant (socks : gmap nat Socket) (ops : list RoomOp)
    (callId : string) (ws : WebSocket) (userId : string) :
  let st := apply_ops {| rooms := ∅; sockets := socks |} ops in
  length (occupants st callId) ≤ 2
  ∧ NoDup (occupants st callId)
  ∧ (length (occupants st callId) = 2 →
     userId ∉ occupants st callId →
     handleJoin st ws callId userId = (st, [ws_send ws (error "Call is full")]))
  ∧ (∀ st', reachable st' →
       length (occupants st' callId) ≤ 2 ∧ NoDup (occupants st' callId)).
Proof.
  intros st.
  assert (Hok : rooms_ok st) by (apply apply_ops_rooms_ok, map_Forall_empty).
  destruct (occupants_ok st callId Hok) as [Hlen Hnd].
  split; [done|]. split; [done|].
  split; [|by intros st' [Hok' _]%reachable_consistent; apply occupants_ok].
  unfold occupants. destruct (rooms st !! callId) as [room|] eqn:Hroom; [|done].
  rewrite length_fmap. intros H2 Hnew.
  apply (handleJoin_full _ _ _ _ room); [done..|lia].
Qed.

Lemma capacity_invariant_witness :
  let st := apply_ops {| rooms := ∅; sockets := ∅ |}
              [op_join 1 "C1" "U1"; op_join 2 "C1" "U2"] in
  length (occupants st "C1") = 2
  ∧ ("U3"%string ∉ occupants st "C1")
  ∧ handleJoin st 3 "C1" "U3" = (st, [ws_send 3 (error "Call is full")]).
Proof.
  intros st.
  assert (H2 : length (occupants st "C1") = 2) by (vm_compute; reflexivity).
  assert (Hnew : ("U3"%string) ∉ occupants st "C1")
    by (apply (bool_decide_unpack _); vm_compute; exact I).
  split; [exact H2|]. split; [exact Hnew|].
  exact (proj1 (proj2 (proj2 (capacity_invariant ∅
                                [op_join 1 "C1" "U1"; op_join 2 "C1" "U2"]
                                "C1" 3 "U3"))) H2 Hnew).
Defined.

(** ** Authorization *)

Lemma authorized_false videoCall userId :
  authorized videoCall userId = false
  ↔ initiatorId videoCall ≠ Some userId ∧ participantId videoCall ≠ Some userId.
Proof.
  unfold authorized. rewrite negb_false_iff, andb_true_iff.
  by rewrite !bool_decide_eq_true.
Qed.

(** C2.  A join sent on a socket whose authenticated identity is neither the
    initiator nor the participant of the call is answered with "Access denied
    to this call" on that socket only; no room is read or changed, whatever
    the rooms hold. *)
Theorem unauthorized_join_denied (env : Env) (st : Service) (ws : WebSocket)
    (sock : Socket) (data : SignalingMessage) (videoCall : VideoCall) :
  sockets st !! ws = Some sock →
  msg_type data = "join"%string →
  getVideoCall env (msg_callId data) = Resolved (Some videoCall) →
  initiatorId videoCall ≠ Some (authenticatedUserId sock) →
  participantId videoCall ≠ Some (authenticatedUserId sock) →
  on_message env st ws (Some data)
  = (st, [getVideoCall_query (msg_callId data);
          ws_send ws (error "Access denied to this call")]).
Proof.
  intros Hws _ Hcall Hi Hp. unfold on_message, handleMessage. rewrite Hws. simpl.
  rewrite Hcall.
  by rewrite (proj2 (authorized_false videoCall (authenticatedUserId sock)) (conj Hi Hp)).
Qed.

Lemma unauthorized_join_denied_witness :
  let st := (run initial (U1_joined ++ [(registry_C1, connection 3 (Some "U3"%string))])).1 in
  on_message registry_C1 st 3 (Some (envelope "join" "C1" None))
  = (st, [getVideoCall_query "C1"; ws_send 3 (error "Access denied to this call")])
  ∧ occupants st "C1" = ["U1"%string].
Proof.
  intros st. split; [|vm_compute; reflexivity].
  apply (unauthorized_join_denied registry_C1 st 3
           {| authenticatedUserId := "U3"; ws_callId := None; readyState := OPEN |}
           (envelope "join" "C1" None) call_C1).
  - vm_compute; reflexivity.
  - reflexivity.
  - reflexivity.
  - discriminate.
  - discriminate.
Defined.

(** ** The claimed sender *)

Lemma with_userId_same d d' u :
  same_envelope d d' → with_userId d u = with_userId d' u.
Proof. intros (Ht & Hc & Hd). unfold with_userId. by rewrite Ht, Hc, Hd. Qed.

Lemma step_same_event env st ev ev' :
  same_event ev ev' → step env st ev = step env st ev'.
Proof.
  intros [ws d d' Hsame|]; [|done]. simpl. unfold on_message.
  destruct (sockets st !! ws) as [sock|]; [|done].
  by rewrite (with_userId_same d d' _ Hsame).
Qed.

(** Runs whose events differ only in the [userId] members of the envelopes
    received end in the same state and perform the same actions. *)
Lemma run_same_events (st : Service) (evs evs' : list (Env * Event)) :
  Forall2 (λ e e', e.1 = e'.1 ∧ same_event e.2 e'.2) evs evs' →
  run st evs = run st evs'.
Proof.
  intros H. revert st. induction H as [|[env ev] [env' ev'] evs evs' [He Hs] _ IH];
    intros st; [done|].
  simpl in *. subst env'. rewrite (step_same_event env st ev ev' Hs).
  destruct (step env st ev') as [st1 out1]. by rewrite IH.
Qed.

(** ** Leaving *)

Lemma Map_delete_cons_eq k v (m : list (string * WebSocket)) :
  Map_delete k ((k, v) :: m) = Map_delete k m.
Proof. unfold Map_delete. rewrite filter_cons_False; [done|]. simpl. tauto. Qed.



(** Leaving a room one does not occupy changes nothing in a state whose
    rooms are well formed. *)
Lemma handleLeave_absent st callId userId room :
  rooms st !! callId = Some room →
  participants room ≠ [] →
  userId ∉ (participants room).*1 →
  handleLeave st callId userId
  = (st, broadcastToRoom st callId (user_left userId) None).
Proof.
  intros Hroom Hne Hout. unfold handleLeave. rewrite Hroom.
  rewrite Map_delete_absent by done.
  assert (Hsame : set_participants room (participants room) = room) by by destruct room.
  rewrite Hsame, insert_id by done.
  assert (Hst : set_rooms st (rooms st) = st) by by destruct st.
  rewrite Hst. rewrite bool_decide_eq_false_2; [done|].
  by destruct (participants room).
Qed.




(** ** Dispatch *)

Lemma filter_agree {A} (P Q : A → Prop) `{!∀ x, Decision (P x), !∀ x, Decision (Q x)}
    (l : list A) :
  (∀ x, x ∈ l → P x ↔ Q x) → filter P l = filter Q l.
Proof.
  induction l as [|x l IH]; intros Hl; [done|].
  rewrite !filter_cons.
  rewrite IH by (intros y Hy; apply Hl; by right).
  destruct (decide (P x)) as [HP|HP], (decide (Q x)) as [HQ|HQ]; try done.
  - destruct HQ. apply Hl; [by left|done].
  - destruct HP. apply Hl; [by left|done].
Qed.

Lemma dispatch_join st ws m :
  msg_type m = "join"%string →
  dispatch st ws m = handleJoin st ws (msg_callId m) (msg_userId m).
Proof. intros H. unfold dispatch. by rewrite H. Qed.

Lemma dispatch_negotiation st ws m :
  negotiation (msg_type m) →
  dispatch st ws m
  = relaySignalingMessage st (msg_callId m) (msg_userId m) (msg_type m) (msg_data m).
Proof.
  intros H. unfold dispatch.
  rewrite bool_decide_eq_false_2 by (destruct H as [->|[->| ->]]; discriminate).
  by rewrite bool_decide_eq_true_2.
Qed.

Lemma dispatch_leave st ws m :
  msg_type m = "leave"%string →
  dispatch st ws m = handleLeave st (msg_callId m) (msg_userId m).
Proof. intros H. unfold dispatch. by rewrite H. Qed.

Lemma dispatch_unknown st ws m :
  ¬ known_kind (msg_type m) → dispatch st ws m = (st, []).
Proof.
  intros H. unfold dispatch, known_kind, negotiation in *.
  rewrite !bool_decide_eq_false_2; [done|tauto..].
Qed.

(** What the [message] handler does once the registry has answered with a
    call that designates the socket's identity. *)
Lemma on_message_authorized env st ws sock data videoCall :
  sockets st !! ws = Some sock →
  getVideoCall env (msg_callId data) = Resolved (Some videoCall) →
  authorized videoCall (authenticatedUserId sock) = true →
  on_message env st ws (Some data)
  = ((dispatch st ws (with_userId data (authenticatedUserId sock))).1,
     getVideoCall_query (msg_callId data)
       :: (dispatch st ws (with_userId data (authenticatedUserId sock))).2).
Proof.
  intros Hws Hcall Hauth. unfold on_message, handleMessage. rewrite Hws. simpl.
  rewrite Hcall, Hauth. simpl. by destruct (dispatch _ _ _).
Qed.

Lemma relaySignalingMessage_room st callId fromUserId type data room :
  rooms st !! callId = Some room →
  relaySignalingMessage st callId fromUserId type data
  = (st, (λ w, ws_send w (relayed type data fromUserId)) <$> relay_targets st room fromUserId).
Proof.
  intros Hroom. unfold relaySignalingMessage, broadcastToRoom, relay_targets.
  rewrite Hroom. f_equal. rewrite <- list_fmap_compose.
  f_equal. apply list_filter_iff. intros [u w]. simpl.
  split; intros [Hne Hopen]; (split; [congruence|done]).
Qed.





(** ** Registry lookups *)










(** ** Rooms come and go with their occupants *)

Lemma handleLeave_last st callId userId ws room :
  rooms st !! callId = Some room →
  participants room = [(userId, ws)] →
  handleLeave st callId userId = (set_rooms st (delete callId (rooms st)), []).
Proof.
  intros Hroom Hps. unfold handleLeave. rewrite Hroom, Hps.
  rewrite Map_delete_cons_eq. change (Map_delete userId []) with (@nil (string * WebSocket)).
  simpl. rewrite delete_insert_eq. f_equal.
  unfold broadcastToRoom. simpl. by rewrite lookup_insert_eq.
Qed.

(** C7.  In every state the service can reach, the directory has a room for
    a call exactly when the call has an occupant.  When the only occupant
    leaves, the room is deleted from the directory, and the next join for the
    call makes a new room that holds the joiner alone and acknowledges a
    participant count of one. *)
Theorem destroy_on_empty (st : Service) (callId userId : string) (ws : WebSocket)
    (userId' : string) (ws' : WebSocket) :
  reachable st →
  (is_Some (rooms st !! callId) ↔ occupants st callId ≠ [])
  ∧ (∀ room, rooms st !! callId = Some room →
       participants room = [(userId, ws)] →
       let st1 := (handleLeave st callId userId).1 in
       let st2 := (handleJoin st1 ws' callId userId').1 in
       rooms st1 !! callId = None
       ∧ rooms st2 !! callId
         = Some {| room_callId := callId; participants := [(userId', ws')] |}
       ∧ (handleJoin st1 ws' callId userId').2 = [ws_send ws' (joined callId 1)]).
Proof.
  intros [Hok _]%reachable_consistent. split.
  - unfold occupants. destruct (rooms st !! callId) as [room|] eqn:Hroom.
    + destruct (Hok _ _ Hroom) as (_ & Hne & _).
      split; [|by eauto]. intros _ Hnil. by apply fmap_nil_inv in Hnil.
    + split; [by intros [? ?]|done].
  - intros room Hroom Hps st1 st2.
    assert (H1 : rooms st1 !! callId = None).
    { unfold st1. rewrite (handleLeave_last _ _ _ _ _ Hroom Hps). simpl.
      apply lookup_delete_eq. }
    split; [done|]. unfold st2. rewrite (handleJoin_create _ _ _ _ H1). simpl.
    split; [apply lookup_insert_eq|done].
Qed.

Lemma destroy_on_empty_witness :
  let st := (run initial U1_joined).1 in
  let st1 := (handleLeave st "C1" "U1").1 in
  let st2 := (handleJoin st1 2 "C1" "U2").1 in
  reachable st
  ∧ is_Some (rooms st !! "C1"%string)
  ∧ rooms st1 !! "C1"%string = None
  ∧ rooms st2 !! "C1"%string
    = Some {| room_callId := "C1"; participants := [("U2"%string, 2)] |}.
Proof.
  intros st st1 st2.
  assert (Hst : reachable st) by apply (reachable_run initial U1_joined), reachable_initial.
  destruct (destroy_on_empty st "C1" "U1" 1 "U2" 2 Hst) as [Hiff Hleave].
  destruct (Hleave {| room_callId := "C1"; participants := [("U1"%string, 1)] |})
    as (H1 & H2 & _); [vm_compute; reflexivity|reflexivity|].
  split; [exact Hst|]. split; [|exact (conj H1 H2)].
  apply Hiff. vm_compute. discriminate.
Defined.

(** ** Relay *)

Lemma reachable_in_reachable env st : reachable_in env st → reachable st.
Proof. induction 1; [constructor|by constructor]. Qed.

Lemma handleJoin_designated env st ws callId userId videoCall :
  getVideoCall env callId = Resolved (Some videoCall) →
  authorized videoCall userId = true →
  designated env st → designated env (handleJoin st ws callId userId).1.
Proof.
  intros Hcall Hauth Hok. destruct (rooms st !! callId) as [room|] eqn:Hroom.
  - destruct (decide (userId ∈ (participants room).*1)) as [Hin|Hin].
    { by rewrite (handleJoin_present _ _ _ _ _ Hroom Hin). }
    destruct (decide (2 ≤ length (participants room))) as [Hfull|Hfree].
    { by rewrite (handleJoin_full _ _ _ _ _ Hroom Hin Hfull). }
    rewrite (handleJoin_admit _ _ _ _ room) by (done || lia). simpl.
    intros c r u w. simpl. rewrite lookup_insert. case_decide as Heq.
    + intros [= <-]. simpl. rewrite elem_of_app, list_elem_of_singleton. subst c.
      intros [Hold|[= -> ->]]; [by eapply Hok|by eauto].
    + apply Hok.
  - rewrite handleJoin_create by done. simpl.
    intros c r u w. simpl. rewrite lookup_insert. case_decide as Heq.
    + intros [= <-]. simpl. subst c. intros [= -> ->]%list_elem_of_singleton. by eauto.
    + apply Hok.
Qed.

Lemma handleLeave_designated env st callId userId :
  designated env st → designated env (handleLeave st callId userId).1.
Proof.
  intros Hok. unfold handleLeave.
  destruct (rooms st !! callId) as [room|] eqn:Hroom; [|apply Hok].
  intros c r u w. case_bool_decide as Hempty; simpl.
  - rewrite delete_insert_eq, lookup_delete. case_decide; [done|apply Hok].
  - rewrite lookup_insert. case_decide as Heq; [|apply Hok].
    intros [= <-]. simpl. intros Hin%Map_delete_elem. subst c. by eapply Hok.
Qed.

Lemma step_designated env st ev : designated env st → designated env (step env st ev).1.
Proof.
  intros Hok. destruct ev as [ws token|ws parsed|ws|ws]; simpl.
  - destruct (sockets st !! ws); [done|]. unfold on_connection.
    destruct token as [token|]; [|done]. destruct (negb _); [done|].
    by destruct (authenticateWebSocket _ _).
  - unfold on_message. destruct (sockets st !! ws) as [sock|]; [|done].
    destruct parsed as [data|]; [|done]. unfold handleMessage. simpl.
    destruct (getVideoCall env _) as [|[videoCall|]] eqn:Hcall; [done| |done].
    destruct (authorized _ _) eqn:Hauth; simpl; [|done].
    assert (Hd : designated env
                   (dispatch st ws (with_userId data (authenticatedUserId sock))).1).
    { unfold dispatch. simpl. repeat case_bool_decide.
      - by eapply handleJoin_designated.
      - by rewrite relaySignalingMessage_state.
      - by apply handleLeave_designated.
      - done. }
    by destruct (dispatch _ _ _).
  - destruct (sockets st !! ws); [|done]. by case_bool_decide.
  - destruct (sockets st !! ws) as [sock|]; [|done]. case_bool_decide; [done|].
    unfold handleDisconnect. simpl. rewrite lookup_insert_eq. simpl.
    destruct (ws_callId sock); [|done]. destruct (_ && _); [|done].
    by apply handleLeave_designated.
Qed.

Lemma reachable_in_designated env st : reachable_in env st → designated env st.
Proof.
  induction 1 as [|st ev _ IH]; [|by apply step_designated].
  intros c r u w. unfold initial. simpl. by rewrite lookup_empty.
Qed.

Lemma reachable_in_run env st evs :
  reachable_in env st → reachable_in env (run st ((λ ev, (env, ev)) <$> evs)).1.
Proof.
  revert st. induction evs as [|ev evs IH]; intros st Hst; [done|].
  rewrite fmap_cons. simpl. pose proof (reachable_in_step env st ev Hst) as H1.
  destruct (step env st ev) as [st1 out1]. specialize (IH st1 H1).
  destruct (run st1 _) as [st2 out2]. done.
Qed.

Lemma elem_of_relay_targets st room fromUserId w :
  w ∈ relay_targets st room fromUserId
  ↔ ∃ u, (u, w) ∈ participants room ∧ u ≠ fromUserId ∧ is_open st w.
Proof.
  unfold relay_targets. rewrite list_elem_of_fmap. split.
  - intros [[u w'] [-> [[Hne Hopen] Hin]%list_elem_of_filter]]. by exists u.
  - intros (u & Hin & Hne & Hopen). exists (u, w). split; [done|].
    by apply list_elem_of_filter.
Qed.

(** C8, as the code has it.  The relay is behind the registry lookup made
    for every envelope.  For an offer, answer or candidate received from an
    occupant: when the lookup gives a call that designates the sender, which
    it does whenever the registry is as it was while the room filled, no
    state changes and the envelope is written, with [type] and [data] as
    received and [fromUserId] set to the identity stored for the sending
    socket, to the sockets of the occupants under another identity (those
    whose transport is open, which is what the code tests before it writes)
    and to no other socket: never to the sender, and to nobody, without any
    error, when the sender is alone.  When the lookup fails, finds no call or
    finds a call that does not designate the sender, nothing is relayed and
    the sender is written an error. *)
Theorem relay_to_the_other_occupants (env : Env) (st : Service) (ws : WebSocket)
    (sock : Socket) (data : SignalingMessage) (room : CallRoom) :
  reachable st →
  sockets st !! ws = Some sock →
  negotiation (msg_type data) →
  rooms st !! msg_callId data = Some room →
  (authenticatedUserId sock, ws) ∈ participants room →
  let userId := authenticatedUserId sock in
  let callId := msg_callId data in
  let frame := relayed (msg_type data) (msg_data data) userId in
  ((∃ videoCall, getVideoCall env callId = Resolved (Some videoCall)
                 ∧ authorized videoCall userId = true) →
   on_message env st ws (Some data)
   = (st, getVideoCall_query callId
            :: ((λ w, ws_send w frame) <$> relay_targets st room userId)))
  ∧ (∀ u w, (u, w) ∈ participants room → u ≠ userId → is_open st w →
            w ∈ relay_targets st room userId)
  ∧ (∀ w, w ∈ relay_targets st room userId →
          w ≠ ws ∧ ∃ u, (u, w) ∈ participants room ∧ u ≠ userId)
  ∧ (participants room = [(userId, ws)] → relay_targets st room userId = [])
  ∧ ((∀ videoCall, getVideoCall env callId = Resolved (Some videoCall) →
                   authorized videoCall userId = false) →
     on_message env st ws (Some data)
     = (st, [getVideoCall_query callId;
             ws_send ws (error match getVideoCall env callId with
                               | Rejected => "Invalid message format"
                               | Resolved None => "Video call not found"
                               | Resolved (Some _) => "Access denied to this call"
                               end)]))
  ∧ (reachable_in env st →
     ∃ videoCall, getVideoCall env callId = Resolved (Some videoCall)
                  ∧ authorized videoCall userId = true).
Proof.
  intros Hst Hws Hneg Hroom Hin userId callId frame.
  destruct (reachable_consistent _ Hst) as [_ Hmem].
  split; [|split; [|split; [|split; [|split]]]].
  - intros (videoCall & Hcall & Hauth).
    rewrite (on_message_authorized _ _ _ _ _ _ Hws Hcall Hauth).
    rewrite dispatch_negotiation by done. simpl.
    by rewrite (relaySignalingMessage_room _ _ _ _ _ room).
  - intros u w Hu Hne Hopen. apply elem_of_relay_targets. by exists u.
  - intros w (u & Hu & Hne & _)%elem_of_relay_targets. split; [|by exists u].
    intros ->. pose proof (Hmem _ _ _ _ Hroom Hu) as Hid.
    rewrite Hws in Hid. simpl in Hid. subst userId. congruence.
  - intros Hps. unfold relay_targets. rewrite Hps.
    rewrite filter_cons_False; [done|]. simpl. tauto.
  - intros Hout. unfold on_message, handleMessage. rewrite Hws. simpl.
    fold callId userId.
    destruct (getVideoCall env callId) as [|[videoCall|]]; [done| |done].
    by rewrite (Hout videoCall eq_refl).
  - intros Hin_env.
    apply (reachable_in_designated _ _ Hin_env _ _ _ _ Hroom Hin).
Qed.

Lemma relay_to_the_other_occupants_witness :
  let st := (run initial both_joined).1 in
  on_message registry_C1 st 1 (Some (envelope "offer" "C1" (Some (JStr "O"))))
  = (st, [getVideoCall_query "C1";
          ws_send 2 (relayed "offer" (Some (JStr "O")) "U1")]).
Proof.
  intros st.
  destruct (relay_to_the_other_occupants registry_C1 st 1
              {| authenticatedUserId := "U1"; ws_callId := Some "C1"%string;
                 readyState := OPEN |}
              (envelope "offer" "C1" (Some (JStr "O")))
              {| room_callId := "C1"; participants := [("U1"%string, 1); ("U2"%string, 2)] |})
    as (Hrelay & _).
  - apply (reachable_run initial both_joined), reachable_initial.
  - vm_compute; reflexivity.
  - left; reflexivity.
  - vm_compute; reflexivity.
  - simpl. apply list_elem_of_here.
  - rewrite Hrelay; [vm_compute; reflexivity|].
    exists call_C1. split; reflexivity.
Defined.

(** C8 as stated fails: [U1] and [U2] are both in the room of [C1], the
    socket of [U2] is open, the registry lookup fails, and the offer of [U1]
    is not delivered to [U2]; [U1] gets an error instead. *)
Lemma occupant_offer_with_registry_down :
  let st := (run initial both_joined).1 in
  participants <$> rooms st !! "C1"%string = Some [("U1"%string, 1); ("U2"%string, 2)]
  ∧ is_open st 2
  ∧ on_message registry_down st 1 (Some (envelope "offer" "C1" (Some (JStr "O"))))
    = (st, [getVideoCall_query "C1"; ws_send 1 (error "Invalid message format")]).
Proof. vm_compute. repeat split; reflexivity. Qed.

(** ** Malformed envelopes *)

(** C9, as the code has it.  A message that does not parse is answered with
    "Invalid message format" on the sending socket, and nothing else happens.
    An envelope of a kind the [switch] does not know is not a format error:
    after the registry lookup and the access check, which may answer with
    their own errors, it is dropped without any frame.  In both cases no
    state changes and no socket is closed. *)
Theorem malformed_envelopes (env : Env) (st : Service) (ws : WebSocket)
    (sock : Socket) (data : SignalingMessage) :
  sockets st !! ws = Some sock →
  on_message env st ws None = (st, [ws_send ws (error "Invalid message format")])
  ∧ (¬ known_kind (msg_type data) →
     on_message env st ws (Some data)
     = (st, getVideoCall_query (msg_callId data)
              :: match getVideoCall env (msg_callId data) with
                 | Rejected => [ws_send ws (error "Invalid message format")]
                 | Resolved None => [ws_send ws (error "Video call not found")]
                 | Resolved (Some videoCall) =>
                     if authorized videoCall (authenticatedUserId sock) then []
                     else [ws_send ws (error "Access denied to this call")]
                 end)).
Proof.
  intros Hws. split.
  - unfold on_message. by rewrite Hws.
  - intros Hkind. unfold on_message, handleMessage. rewrite Hws. simpl.
    destruct (getVideoCall env _) as [|[videoCall|]]; [done| |done].
    destruct (authorized _ _); simpl; [|done].
    by rewrite dispatch_unknown.
Qed.

Lemma malformed_envelopes_witness :
  let st := (run initial U1_joined).1 in
  on_message registry_C1 st 1 None = (st, [ws_send 1 (error "Invalid message format")])
  ∧ on_message registry_empty st 1 (Some (envelope "ping" "C1" None))
    = (st, [getVideoCall_query "C1"; ws_send 1 (error "Video call not found")]).
Proof.
  intros st. split.
  - apply (malformed_envelopes registry_C1 st 1
             {| authenticatedUserId := "U1"; ws_callId := Some "C1"%string;
                readyState := OPEN |} (envelope "ping" "C1" None)).
    vm_compute; reflexivity.
  - apply (malformed_envelopes registry_empty st 1
             {| authenticatedUserId := "U1"; ws_callId := Some "C1"%string;
                readyState := OPEN |} (envelope "ping" "C1" None)).
    + vm_compute; reflexivity.
    + unfold known_kind, negotiation. simpl.
      intros [H|[[H|[H|H]]|H]]; discriminate H.
Defined.

(** C9 as stated fails: an envelope of unknown kind from a designated
    identity gets no answer at all. *)
Lemma unknown_kind_gets_no_error :
  let st := (run initial U1_joined).1 in
  on_message registry_C1 st 1 (Some (envelope "ping" "C1" None))
  = (st, [getVideoCall_query "C1"]).
Proof. vm_compute. reflexivity. Qed.

(** ** Closing a socket that never joined *)

Lemma handleJoin_callId_of st ws' callId userId ws :
  never_joined ws (handleJoin st ws' callId userId).2 →
  callId_of (handleJoin st ws' callId userId).1 ws = callId_of st ws.
Proof.
  assert (Hne : ∀ out n, never_joined ws (out ++ [ws_send ws' (joined callId n)]) → ws' ≠ ws).
  { intros out n Hnever ->. apply (Hnever callId n), elem_of_app. right. apply list_elem_of_here. }
  unfold callId_of. destruct (rooms st !! callId) as [room|] eqn:Hroom.
  - destruct (decide (userId ∈ (participants room).*1)) as [Hin|Hin].
    { by rewrite (handleJoin_present _ _ _ _ _ Hroom Hin). }
    destruct (decide (2 ≤ length (participants room))) as [Hfull|Hfree].
    { by rewrite (handleJoin_full _ _ _ _ _ Hroom Hin Hfull). }
    rewrite (handleJoin_admit _ _ _ _ room) by (done || lia). simpl.
    intros Hnever%Hne. by rewrite lookup_alter_ne.
  - rewrite handleJoin_create by done. simpl.
    intros Hnever%(Hne []). by rewrite lookup_alter_ne.
Qed.

Lemma never_joined_app ws out out' :
  never_joined ws (out ++ out') ↔ never_joined ws out ∧ never_joined ws out'.
Proof.
  unfold never_joined. split.
  - intros H. split; intros c n Hin; apply (H c n), elem_of_app; tauto.
  - intros [H H'] c n [Hin|Hin]%elem_of_app; [by apply (H c n)|by apply (H' c n)].
Qed.

Lemma step_callId_of env st ev ws :
  never_joined ws (step env st ev).2 →
  callId_of st ws = None → callId_of (step env st ev).1 ws = None.
Proof.
  destruct ev as [ws' token|ws' parsed|ws'|ws']; simpl.
  - intros _ Hpre. destruct (sockets st !! ws') as [sock'|] eqn:Hws'; [done|].
    unfold on_connection. destruct token as [token|]; [|done].
    destruct (negb _); [done|]. destruct (authenticateWebSocket _ _); [|done].
    unfold callId_of in *. simpl. rewrite lookup_insert. by case_decide.
  - unfold on_message. destruct (sockets st !! ws') as [sock'|]; [|done].
    destruct parsed as [data|]; [|done]. unfold handleMessage. simpl.
    destruct (getVideoCall env _) as [|[videoCall|]]; [done| |done].
    destruct (authorized _ _); simpl; [|done].
    set (m := with_userId data (authenticatedUserId sock')).
    assert (Hd : never_joined ws (dispatch st ws' m).2 →
                 callId_of (dispatch st ws' m).1 ws = callId_of st ws).
    { unfold dispatch. repeat case_bool_decide.
      - apply handleJoin_callId_of.
      - by rewrite relaySignalingMessage_state.
      - intros _. unfold callId_of. by rewrite handleLeave_sockets.
      - done. }
    destruct (dispatch st ws' m) as [st' out]. simpl in *.
    intros Hnever Hpre. rewrite Hd; [done|].
    by apply (never_joined_app ws [getVideoCall_query (msg_callId data)] out).
  - intros _ Hpre. destruct (sockets st !! ws') as [sock'|] eqn:Hws'; [|done].
    case_bool_decide; [|done]. unfold callId_of in *. simpl.
    rewrite lookup_insert. case_decide as Heq; [|done].
    subst ws'. by rewrite Hws' in Hpre.
  - intros _ Hpre. destruct (sockets st !! ws') as [sock'|] eqn:Hws'; [|done].
    case_bool_decide; [done|]. unfold handleDisconnect. simpl.
    rewrite lookup_insert_eq. simpl.
    assert (Hset : callId_of {| rooms := rooms st;
                     sockets := <[ws' := set_readyState CLOSED sock']> (sockets st) |} ws
                   = None).
    { unfold callId_of in *. simpl. rewrite lookup_insert. case_decide as Heq; [|done].
      subst ws'. by rewrite Hws' in Hpre. }
    destruct (ws_callId sock'); [|done]. destruct (_ && _); [|done].
    unfold callId_of in *. by rewrite handleLeave_sockets.
Qed.

Lemma run_callId_of st evs ws :
  never_joined ws (run st evs).2 →
  callId_of st ws = None → callId_of (run st evs).1 ws = None.
Proof.
  revert st. induction evs as [|[env ev] evs IH]; intros st; [done|].
  simpl. pose proof (step_callId_of env st ev ws) as Hstep.
  destruct (step env st ev) as [st1 out1]. specialize (IH st1).
  destruct (run st1 evs) as [st2 out2]. simpl in *.
  intros [H1 H2]%never_joined_app Hpre. auto.
Qed.

(** C10.  When the socket that closes has no stored call identifier, the
    [close] handler changes nothing and writes nothing.  That is the case of
    every socket to which no join was ever acknowledged: after any run in
    which [ws] got no [joined] frame, its [close] event leaves every room as
    it is and writes no frame to anyone. *)
Theorem disconnect_without_join (ws : WebSocket) :
  (∀ st sock, sockets st !! ws = Some sock → ws_callId sock = None →
              handleDisconnect st ws = (st, []))
  ∧ (∀ evs env, never_joined ws (run initial evs).2 →
       let st := (run initial evs).1 in
       rooms (step env st (close ws)).1 = rooms st
       ∧ (step env st (close ws)).2 = []).
Proof.
  split.
  - intros st sock Hws Hnone. unfold handleDisconnect. by rewrite Hws, Hnone.
  - intros evs env Hnever st.
    assert (Hnone : callId_of st ws = None).
    { apply run_callId_of; [done|]. unfold callId_of, initial. simpl.
      by rewrite lookup_empty. }
    simpl. unfold callId_of in Hnone.
    destruct (sockets st !! ws) as [sock|] eqn:Hws; [|done].
    simpl in Hnone. case_bool_decide; [done|].
    unfold handleDisconnect. simpl. rewrite lookup_insert_eq. simpl.
    by rewrite Hnone.
Qed.

Lemma disconnect_without_join_witness :
  let st := (run initial U2_joined).1 in
  never_joined 1 (run initial U2_joined).2
  ∧ rooms (step registry_C1 st (close 1)).1 = rooms st
  ∧ (step registry_C1 st (close 1)).2 = [].
Proof.
  intros st.
  assert (Hnever : never_joined 1 (run initial U2_joined).2).
  { intros c n Hin. vm_compute in Hin.
    repeat (apply elem_of_cons in Hin as [Hin|Hin]; [discriminate Hin|]).
    by apply elem_of_nil in Hin. }
  split; [exact Hnever|].
  exact (proj2 (disconnect_without_join 1) U2_joined registry_C1 Hnever).
Defined.

(** * Further properties of the signaling service *)

(** ** What a handler writes, and to whom *)

Lemma elem_of_broadcastToRoom st callId msg exclude e :
  e ∈ broadcastToRoom st callId msg exclude
  ↔ ∃ room u w, rooms st !! callId = Some room ∧ (u, w) ∈ participants room
                ∧ Some u ≠ exclude ∧ is_open st w ∧ e = ws_send w msg.
Proof.
  unfold broadcastToRoom. destruct (rooms st !! callId) as [room|] eqn:Hroom.
  - rewrite list_elem_of_fmap. split.
    + intros [[u w] [-> [[Hne Hopen] Hin]%list_elem_of_filter]].
      by exists room, u, w.
    + intros (room' & u & w & [= <-] & Hin & Hne & Hopen & ->).
      exists (u, w). split; [done|]. by apply list_elem_of_filter.
  - split; [by intros ?%elem_of_nil|]. by intros (room' & u & w & [=] & _).
Qed.

(** A message changes the socket store at most by storing a call identifier
    on the sending socket. *)
Lemma handleJoin_sockets st ws callId userId :
  sockets (handleJoin st ws callId userId).1 = sockets st
  ∨ sockets (handleJoin st ws callId userId).1
    = alter (store_callId callId) ws (sockets st).
Proof.
  destruct (rooms st !! callId) as [room|] eqn:Hroom.
  - destruct (decide (userId ∈ (participants room).*1)) as [Hin|Hin].
    { left. by rewrite (handleJoin_present _ _ _ _ _ Hroom Hin). }
    destruct (decide (2 ≤ length (participants room))) as [Hfull|Hfree].
    { left. by rewrite (handleJoin_full _ _ _ _ _ Hroom Hin Hfull). }
    right. by rewrite (handleJoin_admit _ _ _ _ room) by (done || lia).
  - right. by rewrite handleJoin_create.
Qed.

Lemma dispatch_sockets st ws m :
  sockets (dispatch st ws m).1 = sockets st
  ∨ sockets (dispatch st ws m).1
    = alter (store_callId (msg_callId m)) ws (sockets st).
Proof.
  unfold dispatch. repeat case_bool_decide.
  - apply handleJoin_sockets.
  - left. by rewrite relaySignalingMessage_state.
  - left. apply handleLeave_sockets.
  - by left.
Qed.

Lemma on_message_sockets env st ws parsed :
  sockets (on_message env st ws parsed).1 = sockets st
  ∨ ∃ callId, sockets (on_message env st ws parsed).1
              = alter (store_callId callId) ws (sockets st).
Proof.
  unfold on_message. destruct (sockets st !! ws) as [sock|]; [|by left].
  destruct parsed as [data|]; [|by left]. unfold handleMessage. simpl.
  destruct (getVideoCall env _) as [|[videoCall|]]; [by left| |by left].
  destruct (authorized _ _); simpl; [|by left].
  pose proof (dispatch_sockets st ws (with_userId data (authenticatedUserId sock))) as Hd.
  destruct (dispatch _ _ _) as [st' out]. simpl in *.
  destruct Hd as [Hd|Hd]; [by left|right; eauto].
Qed.

Lemma alter_store_callId_lookup callId ws (s : gmap nat Socket) w :
  authenticatedUserId <$> alter (store_callId callId) ws s !! w
  = authenticatedUserId <$> s !! w
  ∧ readyState <$> alter (store_callId callId) ws s !! w = readyState <$> s !! w.
Proof.
  rewrite lookup_alter. case_decide as Heq; [|done].
  subst w. by destruct (s !! ws).
Qed.

Lemma step_socket_identity env st ev ws sock :
  sockets st !! ws = Some sock →
  authenticatedUserId <$> sockets (step env st ev).1 !! ws
  = Some (authenticatedUserId sock).
Proof.
  intros Hws. destruct ev as [ws' token|ws' parsed|ws'|ws']; simpl.
  - destruct (sockets st !! ws') as [sock'|] eqn:Hws'; [simpl; by rewrite Hws|].
    unfold on_connection. destruct token as [token|]; [|simpl; by rewrite Hws].
    destruct (negb _); [simpl; by rewrite Hws|].
    destruct (authenticateWebSocket _ _); [|simpl; by rewrite Hws].
    simpl. rewrite lookup_insert_ne by congruence. simpl; by rewrite Hws.
  - destruct (on_message_sockets env st ws' parsed) as [->|[c ->]]; [simpl; by rewrite Hws|].
    rewrite (proj1 (alter_store_callId_lookup _ _ _ _)). simpl; by rewrite Hws.
  - destruct (sockets st !! ws') as [sock'|] eqn:Hws'; [|simpl; by rewrite Hws].
    case_bool_decide; [|simpl; by rewrite Hws]. simpl.
    rewrite lookup_insert. case_decide as Heq; [|simpl; by rewrite Hws].
    subst ws'. simpl. congruence.
  - destruct (sockets st !! ws') as [sock'|] eqn:Hws'; [|simpl; by rewrite Hws].
    case_bool_decide; [simpl; by rewrite Hws|].
    unfold handleDisconnect. simpl. rewrite lookup_insert_eq. simpl.
    assert (Hkeep : authenticatedUserId <$> <[ws':=set_readyState CLOSED sock']> (sockets st) !! ws
                    = Some (authenticatedUserId sock)).
    { rewrite lookup_insert. case_decide as Heq; [|simpl; by rewrite Hws].
      subst ws'. simpl. congruence. }
    destruct (ws_callId sock'); [|done]. destruct (_ && _); [|done].
    by rewrite handleLeave_sockets.
Qed.

Lemma run_socket_identity st evs ws sock :
  sockets st !! ws = Some sock →
  authenticatedUserId <$> sockets (run st evs).1 !! ws
  = Some (authenticatedUserId sock).
Proof.
  revert st sock. induction evs as [|[env ev] evs IH]; intros st sock Hws.
  { simpl. by rewrite Hws. }
  simpl. pose proof (step_socket_identity env st ev ws sock Hws) as H1.
  destruct (step env st ev) as [st1 out1]. simpl in H1.
  destruct (sockets st1 !! ws) as [sock1|] eqn:Hws1; [|done].
  specialize (IH st1 sock1 Hws1). destruct (run st1 evs) as [st2 out2].
  simpl in *. congruence.
Qed.

Lemma authenticateWebSocket_truthy env token userId :
  authenticateWebSocket env token = Some userId → truthy userId = true.
Proof.
  unfold authenticateWebSocket. destruct (SESSION_SECRET env); [|done].
  destruct (negb _); [done|]. destruct (jwt_verify env _ _) as [[u|]|]; [|done..].
  destruct (truthy u) eqn:Hu; [|done]. by intros [= <-].
Qed.

Lemma step_identities_truthy env st ev :
  (∀ ws sock, sockets st !! ws = Some sock → truthy (authenticatedUserId sock) = true) →
  ∀ ws sock, sockets (step env st ev).1 !! ws = Some sock →
             truthy (authenticatedUserId sock) = true.
Proof.
  intros Hok ws sock Hws.
  destruct (sockets st !! ws) as [sock0|] eqn:Hws0.
  - pose proof (step_socket_identity env st ev ws sock0 Hws0) as Hid.
    rewrite Hws in Hid. simpl in Hid. injection Hid as ->. by eapply Hok.
  - destruct ev as [ws' token|ws' parsed|ws'|ws']; simpl in Hws.
    + destruct (sockets st !! ws') as [sock'|] eqn:Hws'; [(simpl in Hws; congruence)|].
      unfold on_connection in Hws. destruct token as [token|]; [|(simpl in Hws; congruence)].
      destruct (negb _); [(simpl in Hws; congruence)|].
      destruct (authenticateWebSocket _ _) as [u|] eqn:Hauth; [|(simpl in Hws; congruence)].
      simpl in Hws. rewrite lookup_insert in Hws. case_decide; [|(simpl in Hws; congruence)].
      injection Hws as <-. simpl. by eapply authenticateWebSocket_truthy.
    + destruct (on_message_sockets env st ws' parsed) as [Heq|[c Heq]];
        rewrite Heq in Hws; [(simpl in Hws; congruence)|].
      rewrite lookup_alter in Hws. case_decide; [subst; rewrite Hws0 in Hws; done|(simpl in Hws; congruence)].
    + destruct (sockets st !! ws') as [sock'|] eqn:Hws'; [|(simpl in Hws; congruence)].
      case_bool_decide; [|(simpl in Hws; congruence)]. simpl in Hws.
      rewrite lookup_insert in Hws. case_decide; [(simpl in Hws; congruence)|(simpl in Hws; congruence)].
    + destruct (sockets st !! ws') as [sock'|] eqn:Hws'; [|(simpl in Hws; congruence)].
      case_bool_decide; [(simpl in Hws; congruence)|]. unfold handleDisconnect in Hws. simpl in Hws.
      rewrite lookup_insert_eq in Hws. simpl in Hws.
      assert (Hnone : <[ws':=set_readyState CLOSED sock']> (sockets st) !! ws = None).
      { rewrite lookup_insert. case_decide; [(simpl in Hws; congruence)|done]. }
      destruct (ws_callId sock'); [|(simpl in Hws; congruence)].
      destruct (_ && _); [|(simpl in Hws; congruence)].
      rewrite handleLeave_sockets in Hws. simpl in Hws. (simpl in Hws; congruence).
Qed.

(** X1.  The identity of a socket is decided once, when it connects: no
    event of any run changes it or removes the socket from the store; and in
    every state the service reaches that identity is a non-empty string. *)
Theorem socket_identity_is_fixed (ws : WebSocket) (sock : Socket) :
  (∀ st evs, sockets st !! ws = Some sock →
     authenticatedUserId <$> sockets (run st evs).1 !! ws
     = Some (authenticatedUserId sock))
  ∧ (∀ st, reachable st → sockets st !! ws = Some sock →
       authenticatedUserId sock ≠ ""%string).
Proof.
  split; [intros st evs; apply run_socket_identity|].
  intros st Hst. revert ws sock.
  assert (Hall : ∀ ws sock, sockets st !! ws = Some sock →
                            truthy (authenticatedUserId sock) = true).
  { induction Hst as [|st env ev _ IH]; [|by apply step_identities_truthy].
    intros ws sock. unfold initial. simpl. by rewrite lookup_empty. }
  intros ws sock Hws Hempty. specialize (Hall ws sock Hws).
  by rewrite Hempty in Hall.
Qed.

Lemma socket_identity_is_fixed_witness :
  let st := (run initial U1_joined).1 in
  authenticatedUserId <$> sockets (run st [(registry_C1, close 1)]).1 !! 1
  = Some "U1"%string
  ∧ "U1"%string ≠ ""%string.
Proof.
  intros st.
  destruct (socket_identity_is_fixed 1
              {| authenticatedUserId := "U1"; ws_callId := Some "C1"%string;
                 readyState := OPEN |}) as [Hfix Hne].
  split.
  - apply (Hfix st [(registry_C1, close 1)]). vm_compute; reflexivity.
  - apply (Hne st).
    + apply (reachable_run initial U1_joined), reachable_initial.
    + vm_compute; reflexivity.
Defined.

Lemma handleJoin_writes st ws callId userId e :
  e ∈ (handleJoin st ws callId userId).2 →
  (∃ reason, e = ws_send ws (error reason))
  ∨ (∃ n, (n = 1 ∨ n = 2) ∧ e = ws_send ws (joined callId n))
  ∨ (∃ u w, u ≠ userId ∧ occupies st callId u w ∧ is_open st w
            ∧ e = ws_send w (user_joined userId)).
Proof.
  destruct (rooms st !! callId) as [room|] eqn:Hroom.
  - destruct (decide (userId ∈ (participants room).*1)) as [Hin|Hin].
    { rewrite (handleJoin_present _ _ _ _ _ Hroom Hin). simpl.
      intros ->%list_elem_of_singleton. left. eauto. }
    destruct (decide (2 ≤ length (participants room))) as [Hfull|Hfree].
    { rewrite (handleJoin_full _ _ _ _ _ Hroom Hin Hfull). simpl.
      intros ->%list_elem_of_singleton. left. eauto. }
    rewrite (handleJoin_admit _ _ _ _ room) by (done || lia). simpl.
    rewrite elem_of_app, list_elem_of_singleton. intros [He| ->].
    + right. right. apply elem_of_broadcastToRoom in He
        as (room' & u & w & Hroom' & Hu & Hne & Hopen & ->).
      simpl in Hroom'. rewrite lookup_insert_eq in Hroom'. injection Hroom' as <-.
      simpl in Hu. apply elem_of_app in Hu as [Hu|Hu%list_elem_of_singleton];
        [|congruence].
      exists u, w. split; [congruence|]. split; [by exists room|]. split; [|done].
      unfold is_open in *. simpl in Hopen.
      by rewrite (proj2 (alter_store_callId_lookup _ _ _ _)) in Hopen.
    + right. left. exists (S (length (participants room))). split; [lia|done].
  - rewrite handleJoin_create by done. simpl.
    intros ->%list_elem_of_singleton. right. left. exists 1. by split; [left|].
Qed.

Lemma handleLeave_writes st callId userId e :
  e ∈ (handleLeave st callId userId).2 →
  ∃ u w, u ≠ userId ∧ occupies st callId u w ∧ is_open st w
         ∧ e = ws_send w (user_left userId).
Proof.
  unfold handleLeave. destruct (rooms st !! callId) as [room|] eqn:Hroom;
    [|by intros ?%elem_of_nil].
  simpl. intros (room' & u & w & Hroom' & Hu & _ & Hopen & ->)%elem_of_broadcastToRoom.
  simpl in Hroom'. rewrite lookup_insert_eq in Hroom'. injection Hroom' as <-.
  simpl in Hu. unfold Map_delete in Hu. apply list_elem_of_filter in Hu as [Hne Hu].
  exists u, w. split; [done|]. split; [by exists room|]. by split.
Qed.

Lemma relaySignalingMessage_writes st callId fromUserId type data e :
  e ∈ (relaySignalingMessage st callId fromUserId type data).2 →
  ∃ u w, u ≠ fromUserId ∧ occupies st callId u w ∧ is_open st w
         ∧ e = ws_send w (relayed type data fromUserId).
Proof.
  unfold relaySignalingMessage. destruct (rooms st !! callId) as [room|] eqn:Hroom;
    [|by intros ?%elem_of_nil].
  simpl. intros (room' & u & w & Hroom' & Hu & Hne & Hopen & ->)%elem_of_broadcastToRoom.
  exists u, w. split; [congruence|]. split; [by exists room'|]. by split.
Qed.

Lemma dispatch_writes st ws m e :
  e ∈ (dispatch st ws m).2 → written_by st ws m e.
Proof.
  unfold dispatch. case_bool_decide as Hjoin; [|case_bool_decide as Hneg;
    [|case_bool_decide as Hleave]].
  - intros [[r ->]|[(n & Hn & ->)|(u & w & Hne & Hocc & Hopen & ->)]]%handleJoin_writes.
    + constructor.
    + by constructor.
    + apply (written_peer _ _ _ u); auto.
  - intros (u & w & Hne & Hocc & Hopen & ->)%relaySignalingMessage_writes.
    apply (written_peer _ _ _ u); auto.
  - intros (u & w & Hne & Hocc & Hopen & ->)%handleLeave_writes.
    apply (written_peer _ _ _ u); auto.
  - by intros ?%elem_of_nil.
Qed.

(** Every action of the [message] handler, for an envelope that parsed. *)
Lemma on_message_writes env st ws sock data e :
  sockets st !! ws = Some sock →
  e ∈ (on_message env st ws (Some data)).2 →
  written_by st ws (with_userId data (authenticatedUserId sock)) e.
Proof.
  intros Hws. unfold on_message, handleMessage. rewrite Hws. simpl.
  set (m := with_userId data (authenticatedUserId sock)).
  assert (Hq : written_by st ws m (getVideoCall_query (msg_callId data)))
    by apply (written_query st ws m).
  destruct (getVideoCall env _) as [|[videoCall|]].
  - simpl. intros [->|[->|[]%elem_of_nil]%elem_of_cons]%elem_of_cons;
      [done|constructor].
  - destruct (authorized _ _); simpl.
    + pose proof (dispatch_writes st ws m) as Hd.
      destruct (dispatch st ws m) as [st' out]. simpl in *.
      intros [->|He]%elem_of_cons; [done|by apply Hd].
    + intros [->|[->|[]%elem_of_nil]%elem_of_cons]%elem_of_cons; [done|constructor].
  - simpl. intros [->|[->|[]%elem_of_nil]%elem_of_cons]%elem_of_cons;
      [done|constructor].
Qed.

Lemma occupies_is_open_stored st w : is_open st w → is_Some (sockets st !! w).
Proof. unfold is_open. destruct (sockets st !! w); [by eauto|done]. Qed.

Lemma step_frames_stored env st ev w frame :
  ws_send w frame ∈ (step env st ev).2 → is_Some (sockets st !! w).
Proof.
  destruct ev as [ws token|ws parsed|ws|ws]; simpl.
  - destruct (sockets st !! ws); [by intros ?%elem_of_nil|].
    unfold on_connection. destruct token as [token|];
      [|by intros [=]%list_elem_of_singleton].
    destruct (negb _); [by intros [=]%list_elem_of_singleton|].
    destruct (authenticateWebSocket _ _);
      [by intros ?%elem_of_nil|by intros [=]%list_elem_of_singleton].
  - destruct (sockets st !! ws) as [sock|] eqn:Hws.
    + destruct parsed as [data|].
      * intros He. pose proof (on_message_writes env st ws sock data _ Hws He) as Hw.
        inversion Hw; subst; [by rewrite Hws..|by apply occupies_is_open_stored].
      * unfold on_message. rewrite Hws. simpl.
        intros [= -> _]%list_elem_of_singleton. by rewrite Hws.
    + unfold on_message. rewrite Hws. by intros ?%elem_of_nil.
  - destruct (sockets st !! ws); [|by intros ?%elem_of_nil].
    case_bool_decide; by intros ?%elem_of_nil.
  - destruct (sockets st !! ws) as [sock|] eqn:Hws; [|by intros ?%elem_of_nil].
    case_bool_decide; [by intros ?%elem_of_nil|].
    unfold handleDisconnect. simpl. rewrite lookup_insert_eq. simpl.
    destruct (ws_callId sock); [|by intros ?%elem_of_nil].
    destruct (_ && _); [|by intros ?%elem_of_nil].
    intros (u & w' & _ & _ & Hopen & [= -> _])%handleLeave_writes.
    apply occupies_is_open_stored in Hopen. simpl in Hopen.
    rewrite lookup_insert in Hopen. case_decide; [subst; by rewrite Hws|done].
Qed.

Lemma run_app st evs evs' :
  run st (evs ++ evs')
  = ((run (run st evs).1 evs').1, (run st evs).2 ++ (run (run st evs).1 evs').2).
Proof.
  revert st. induction evs as [|[env ev] evs IH]; intros st.
  { simpl. by destruct (run st evs'). }
  simpl. destruct (step env st ev) as [st1 out1]. rewrite IH.
  destruct (run st1 evs) as [st2 out2]. simpl. by rewrite app_assoc.
Qed.

Lemma step_stored_mono env st ev w :
  is_Some (sockets st !! w) → is_Some (sockets (step env st ev).1 !! w).
Proof.
  intros [sock Hw]. pose proof (step_socket_identity env st ev w sock Hw) as Hid.
  destruct (sockets (step env st ev).1 !! w); [by eauto|done].
Qed.

Lemma run_stored_mono st evs w :
  is_Some (sockets st !! w) → is_Some (sockets (run st evs).1 !! w).
Proof.
  intros [sock Hw]. pose proof (run_socket_identity st evs w sock Hw) as Hid.
  destruct (sockets (run st evs).1 !! w); [by eauto|done].
Qed.

Lemma run_frames_stored st evs w frame :
  ws_send w frame ∈ (run st evs).2 → is_Some (sockets (run st evs).1 !! w).
Proof.
  revert st. induction evs as [|[env ev] evs IH]; intros st; [by intros ?%elem_of_nil|].
  simpl. pose proof (step_frames_stored env st ev w frame) as Hstep.
  pose proof (step_stored_mono env st ev w) as Hmono.
  destruct (step env st ev) as [st1 out1]. specialize (IH st1).
  pose proof (run_stored_mono st1 evs w) as Hrun.
  destruct (run st1 evs) as [st2 out2]. simpl in *.
  intros [He|He]%elem_of_app; auto.
Qed.

Lemma reachable_identity_nonempty st ws sock :
  reachable st → sockets st !! ws = Some sock → authenticatedUserId sock ≠ ""%string.
Proof.
  intros Hst. revert ws sock.
  assert (Hall : ∀ ws sock, sockets st !! ws = Some sock →
                            truthy (authenticatedUserId sock) = true).
  { induction Hst as [|st env ev _ IH]; [|by apply step_identities_truthy].
    intros ws sock. unfold initial. simpl. by rewrite lookup_empty. }
  intros ws sock Hws Hempty. specialize (Hall ws sock Hws).
  by rewrite Hempty in Hall.
Qed.

(** X2.  Frames are written to authenticated sockets only: whatever the run,
    the socket a frame was written to is in the store, under a non-empty
    identity, at the end of the run. *)
Theorem frames_go_to_authenticated_sockets (evs : list (Env * Event))
    (w : WebSocket) (frame : ServerMessage) :
  ws_send w frame ∈ (run initial evs).2 →
  ∃ sock, sockets (run initial evs).1 !! w = Some sock
          ∧ authenticatedUserId sock ≠ ""%string.
Proof.
  intros [sock Hw]%run_frames_stored. exists sock. split; [done|].
  apply (reachable_identity_nonempty (run initial evs).1 w); [|done].
  apply reachable_run, reachable_initial.
Qed.

Lemma frames_go_to_authenticated_sockets_witness :
  ∃ sock, sockets (run initial both_joined).1 !! 1 = Some sock
          ∧ authenticatedUserId sock ≠ ""%string.
Proof.
  apply (frames_go_to_authenticated_sockets both_joined 1 (user_joined "U2")).
  vm_compute. do 3 right. left.
Defined.

(** X3.  The participant count of a join acknowledgement is 1 or 2, in every
    run from every state. *)
Theorem join_acknowledgement_counts (st : Service) (evs : list (Env * Event))
    (w : WebSocket) (callId : string) (n : nat) :
  ws_send w (joined callId n) ∈ (run st evs).2 → n = 1 ∨ n = 2.
Proof.
  revert st. induction evs as [|[env ev] evs IH]; intros st; [by intros ?%elem_of_nil|].
  simpl.
  assert (Hstep : ws_send w (joined callId n) ∈ (step env st ev).2 → n = 1 ∨ n = 2).
  { destruct ev as [ws token|ws parsed|ws|ws]; simpl.
    - destruct (sockets st !! ws); [by intros ?%elem_of_nil|].
      unfold on_connection. destruct token as [token|];
        [|by intros [=]%list_elem_of_singleton].
      destruct (negb _); [by intros [=]%list_elem_of_singleton|].
      destruct (authenticateWebSocket _ _);
        [by intros ?%elem_of_nil|by intros [=]%list_elem_of_singleton].
    - destruct (sockets st !! ws) as [sock|] eqn:Hws.
      + destruct parsed as [data|].
        * intros He. pose proof (on_message_writes env st ws sock data _ Hws He) as Hw.
          inversion Hw as [| |n' Hj Hn|u w' frame Hne Hocc Hopen Hframe]; subst; [done|].
          destruct Hframe as [[_ [=]]|[[_ [=]]|[_ [=]]]].
        * unfold on_message. rewrite Hws. simpl. by intros [=]%list_elem_of_singleton.
      + unfold on_message. rewrite Hws. by intros ?%elem_of_nil.
    - destruct (sockets st !! ws); [|by intros ?%elem_of_nil].
      case_bool_decide; by intros ?%elem_of_nil.
    - destruct (sockets st !! ws) as [sock|] eqn:Hws; [|by intros ?%elem_of_nil].
      case_bool_decide; [by intros ?%elem_of_nil|].
      unfold handleDisconnect. simpl. rewrite lookup_insert_eq. simpl.
      destruct (ws_callId sock); [|by intros ?%elem_of_nil].
      destruct (_ && _); [|by intros ?%elem_of_nil].
      by intros (u & w' & _ & _ & _ & [=])%handleLeave_writes. }
  destruct (step env st ev) as [st1 out1]. specialize (IH st1).
  destruct (run st1 evs) as [st2 out2]. simpl in *.
  intros [He|He]%elem_of_app; auto.
Qed.

Lemma join_acknowledgement_counts_witness : 2 = 1 ∨ 2 = 2.
Proof.
  apply (join_acknowledgement_counts initial both_joined 2 "C1" 2).
  vm_compute. do 4 right. left.
Defined.

(** ** Closing, and staying open *)




(** ** Routing *)

(** X5.  How the frames of a message are routed.  A frame that names no
    identity (an error or a join acknowledgement) goes to the socket that sent
    the message.  A frame that names one (a [user-joined], a [user-left], a
    relayed envelope) names the identity stored for the sending socket and
    goes to an open socket through which an identity other than the sender's
    occupies the room of the envelope's call, a socket authenticated as that
    other identity, never the sending socket; a relayed envelope keeps the
    [type] and the [data] received. *)
Theorem message_frames_routing (env : Env) (st : Service) (ws : WebSocket)
    (sock : Socket) (data : SignalingMessage) (w : WebSocket) (frame : ServerMessage) :
  reachable st →
  sockets st !! ws = Some sock →
  ws_send w frame ∈ (on_message env st ws (Some data)).2 →
  match frame_identity frame with
  | None => w = ws
  | Some userId =>
      userId = authenticatedUserId sock
      ∧ w ≠ ws
      ∧ is_open st w
      ∧ w ∈ room_sockets st (msg_callId data)
      ∧ (∃ u, u ≠ authenticatedUserId sock
              ∧ occupies st (msg_callId data) u w
              ∧ authenticatedUserId <$> sockets st !! w = Some u)
      ∧ (∀ type payload from, frame = relayed type payload from →
           type = msg_type data ∧ payload = msg_data data ∧ negotiation type)
  end.
Proof.
  intros [_ Hmem]%reachable_consistent Hws He.
  pose proof (on_message_writes env st ws sock data _ Hws He) as Hw.
  inversion Hw as [|r|n Hj Hn|u w' frame' Hne [room [Hroom Hin]] Hopen Hframe];
    subst; simpl in *; [done..|].
  assert (Hother : w ≠ ws).
  { intros ->. pose proof (Hmem _ _ _ _ Hroom Hin) as Hid.
    rewrite Hws in Hid. simpl in Hid. congruence. }
  assert (Hsock : w ∈ room_sockets st (msg_callId data)).
  { unfold room_sockets. rewrite Hroom. apply list_elem_of_fmap. by exists (u, w). }
  assert (Hocc : ∃ u, u ≠ authenticatedUserId sock
                      ∧ occupies st (msg_callId data) u w
                      ∧ authenticatedUserId <$> sockets st !! w = Some u).
  { exists u. split; [done|]. split; [by exists room|]. by eapply Hmem. }
  destruct Hframe as [[_ ->]|[[_ ->]|[Hneg ->]]]; simpl;
    (split; [done|]; split; [done|]; split; [done|]; split; [done|];
     split; [done|]);
    intros t p f [=]; subst; auto.
Qed.

Lemma message_frames_routing_witness :
  let st := (run initial both_joined).1 in
  "U1"%string = "U1"%string ∧ 2 ≠ 1 ∧ is_open st 2 ∧ 2 ∈ room_sockets st "C1"
  ∧ ∃ u, u ≠ "U1"%string ∧ occupies st "C1" u 2
         ∧ authenticatedUserId <$> sockets st !! 2 = Some u.
Proof.
  intros st.
  pose proof (message_frames_routing registry_C1 st 1
                {| authenticatedUserId := "U1"; ws_callId := Some "C1"%string;
                   readyState := OPEN |}
                (envelope "offer" "C1" None) 2 (relayed "offer" None "U1")) as H.
  simpl in H. destruct H as (H1 & H2 & H3 & H4 & H5 & _).
  - apply (reachable_run initial both_joined), reachable_initial.
  - vm_compute; reflexivity.
  - vm_compute. right. left.
  - done.
Defined.

(** ** The access gate *)

(** X6.  For every kind of envelope: unless the registry answers the lookup
    with a call that designates the sender, the handler changes no state and
    writes one frame, an error on the sending socket that tells whether the
    lookup failed, found no call, or found a call of other people. *)
Theorem undesignated_sender_changes_nothing (env : Env) (st : Service)
    (ws : WebSocket) (sock : Socket) (data : SignalingMessage) :
  sockets st !! ws = Some sock →
  (∀ videoCall, getVideoCall env (msg_callId data) = Resolved (Some videoCall) →
                initiatorId videoCall ≠ Some (authenticatedUserId sock)
                ∧ participantId videoCall ≠ Some (authenticatedUserId sock)) →
  on_message env st ws (Some data)
  = (st, [getVideoCall_query (msg_callId data);
          ws_send ws (error match getVideoCall env (msg_callId data) with
                            | Rejected => "Invalid message format"
                            | Resolved None => "Video call not found"
                            | Resolved (Some _) => "Access denied to this call"
                            end)]).
Proof.
  intros Hws Hout. unfold on_message, handleMessage. rewrite Hws. simpl.
  destruct (getVideoCall env _) as [|[videoCall|]]; [done| |done].
  by rewrite (proj2 (authorized_false videoCall _) (Hout videoCall eq_refl)).
Qed.

Lemma undesignated_sender_changes_nothing_witness :
  let st := (run initial both_joined).1 in
  on_message registry_C1 st 1 (Some (envelope "leave" "C9" None))
  = (st, [getVideoCall_query "C9"; ws_send 1 (error "Video call not found")]).
Proof.
  intros st.
  apply (undesignated_sender_changes_nothing registry_C1 st 1
           {| authenticatedUserId := "U1"; ws_callId := Some "C1"%string;
              readyState := OPEN |} (envelope "leave" "C9" None)).
  - vm_compute; reflexivity.
  - intros videoCall. vm_compute. discriminate.
Defined.

(** ** One call at a time *)

Lemma handleJoin_other_rooms st ws callId userId c :
  c ≠ callId → rooms (handleJoin st ws callId userId).1 !! c = rooms st !! c.
Proof.
  intros Hne. destruct (rooms st !! callId) as [room|] eqn:Hroom.
  - destruct (decide (userId ∈ (participants room).*1)) as [Hin|Hin].
    { by rewrite (handleJoin_present _ _ _ _ _ Hroom Hin). }
    destruct (decide (2 ≤ length (participants room))) as [Hfull|Hfree].
    { by rewrite (handleJoin_full _ _ _ _ _ Hroom Hin Hfull). }
    rewrite (handleJoin_admit _ _ _ _ room) by (done || lia). simpl.
    by rewrite lookup_insert_ne.
  - rewrite handleJoin_create by done. simpl. by rewrite lookup_insert_ne.
Qed.

Lemma handleLeave_other_rooms st callId userId c :
  c ≠ callId → rooms (handleLeave st callId userId).1 !! c = rooms st !! c.
Proof.
  intros Hne. unfold handleLeave. destruct (rooms st !! callId); [|done].
  case_bool_decide; simpl.
  - by rewrite lookup_delete_ne, lookup_insert_ne.
  - by rewrite lookup_insert_ne.
Qed.

Lemma dispatch_other_rooms st ws m c :
  c ≠ msg_callId m → rooms (dispatch st ws m).1 !! c = rooms st !! c.
Proof.
  intros Hne. unfold dispatch. repeat case_bool_decide.
  - by apply handleJoin_other_rooms.
  - by rewrite relaySignalingMessage_state.
  - by apply handleLeave_other_rooms.
  - done.
Qed.

(** X7.  A message concerns one call and one socket store entry: the rooms
    of all other calls stay as they are, what is stored for the other sockets
    stays as it is, and frames go to the sending socket and to sockets in
    the room of the envelope's call, to no others. *)
Theorem message_touches_one_call (env : Env) (st : Service) (ws : WebSocket)
    (data : SignalingMessage) :
  let st' := (on_message env st ws (Some data)).1 in
  (∀ c, c ≠ msg_callId data → rooms st' !! c = rooms st !! c)
  ∧ (∀ w, w ≠ ws → sockets st' !! w = sockets st !! w)
  ∧ (∀ w frame, ws_send w frame ∈ (on_message env st ws (Some data)).2 →
        w = ws ∨ w ∈ room_sockets st (msg_callId data)).
Proof.
  intros st'. split; [|split].
  - intros c Hne. unfold st', on_message, handleMessage.
    destruct (sockets st !! ws) as [sock|]; [|done]. simpl.
    destruct (getVideoCall env _) as [|[videoCall|]]; [done| |done].
    destruct (authorized _ _); simpl; [|done].
    pose proof (dispatch_other_rooms st ws
                  (with_userId data (authenticatedUserId sock)) c Hne) as Hd.
    by destruct (dispatch _ _ _).
  - intros w Hne. unfold st'.
    destruct (on_message_sockets env st ws (Some data)) as [->|[c ->]]; [done|].
    by rewrite lookup_alter_ne.
  - intros w frame He. destruct (sockets st !! ws) as [sock|] eqn:Hws.
    + pose proof (on_message_writes env st ws sock data _ Hws He) as Hw.
      inversion Hw as [|r|n Hj Hn|u w' frame' Hne [room [Hroom Hin]] Hopen Hframe];
        subst; [by left..|].
      right. simpl in Hroom. unfold room_sockets. rewrite Hroom.
      apply list_elem_of_fmap. by exists (u, w).
    + unfold on_message in He. rewrite Hws in He. by apply elem_of_nil in He.
Qed.

(** ** Joining and leaving *)

Lemma occupants_lookup st callId room :
  rooms st !! callId = Some room → occupants st callId = (participants room).*1.
Proof. intros H. unfold occupants. by rewrite H. Qed.

(** X8.  A join by a designated identity that is not in the room of the
    call, while the room has a free slot: the identity is added after the
    occupants there are, the call is stored on the socket, every occupant
    whose socket is open is written [user-joined] with the new identity, and
    then the joiner is acknowledged with the new number of occupants. *)
Theorem join_admits (env : Env) (st : Service) (ws : WebSocket) (sock : Socket)
    (data : SignalingMessage) (videoCall : VideoCall) :
  sockets st !! ws = Some sock →
  msg_type data = "join"%string →
  getVideoCall env (msg_callId data) = Resolved (Some videoCall) →
  authorized videoCall (authenticatedUserId sock) = true →
  authenticatedUserId sock ∉ occupants st (msg_callId data) →
  length (occupants st (msg_callId data)) < 2 →
  let callId := msg_callId data in
  let userId := authenticatedUserId sock in
  let st' := (on_message env st ws (Some data)).1 in
  occupants st' callId = occupants st callId ++ [userId]
  ∧ callId_of st' ws = Some callId
  ∧ (on_message env st ws (Some data)).2
    = getVideoCall_query callId
        :: ((λ w, ws_send w (user_joined userId)) <$> open_sockets st callId)
        ++ [ws_send ws (joined callId (S (length (occupants st callId))))].
Proof.
  intros Hws Hjoin Hcall Hauth Hnew Hfree callId userId st'. unfold st'.
  rewrite (on_message_authorized _ _ _ _ _ _ Hws Hcall Hauth).
  rewrite dispatch_join by done. simpl. fold callId userId.
  assert (Hcid : callId_of
                   {| rooms := rooms st;
                      sockets := alter (store_callId callId) ws (sockets st) |} ws
                 = Some callId).
  { unfold callId_of. simpl. rewrite lookup_alter_eq, Hws. done. }
  unfold occupants, open_sockets in *. fold callId in Hnew, Hfree.
  destruct (rooms st !! callId) as [room|] eqn:Hroom.
  - rewrite length_fmap in Hfree.
    rewrite (handleJoin_admit _ _ _ _ room) by done. simpl.
    rewrite lookup_insert_eq. simpl. rewrite fmap_app. simpl.
    split; [done|]. split; [exact Hcid|].
    rewrite length_fmap. do 2 f_equal.
    unfold broadcastToRoom. simpl. rewrite lookup_insert_eq. simpl.
    rewrite filter_app, filter_cons_False, app_nil_r by (simpl; tauto).
    rewrite <- list_fmap_compose. f_equal. apply filter_agree.
    intros [u w] Hin. unfold is_open. simpl.
    rewrite (proj2 (alter_store_callId_lookup _ _ _ _)).
    assert (u ≠ userId); [|split; [tauto|intros ?; split; [congruence|done]]].
    intros ->. apply Hnew, list_elem_of_fmap. by exists (userId, w).
  - rewrite handleJoin_create by done. simpl. rewrite lookup_insert_eq. simpl.
    split; [done|]. split; [exact Hcid|done].
Qed.

Lemma join_admits_witness :
  let st := (run initial (U1_joined ++ [(registry_C1, connection 2 (Some "U2"%string))])).1 in
  let st' := (on_message registry_C1 st 2 (Some (envelope "join" "C1" None))).1 in
  occupants st' "C1" = ["U1"; "U2"]%string
  ∧ callId_of st' 2 = Some "C1"%string
  ∧ (on_message registry_C1 st 2 (Some (envelope "join" "C1" None))).2
    = [getVideoCall_query "C1"; ws_send 1 (user_joined "U2"); ws_send 2 (joined "C1" 2)].
Proof.
  intros st st'.
  destruct (join_admits registry_C1 st 2
              {| authenticatedUserId := "U2"; ws_callId := None; readyState := OPEN |}
              (envelope "join" "C1" None) call_C1) as (H1 & H2 & H3).
  - vm_compute; reflexivity.
  - reflexivity.
  - reflexivity.
  - reflexivity.
  - apply (bool_decide_unpack _). vm_compute. exact I.
  - vm_compute. lia.
  - split; [exact H1|]. split; [exact H2|]. rewrite H3. vm_compute. reflexivity.
Defined.

Lemma handleLeave_occupants st callId userId :
  occupants (handleLeave st callId userId).1 callId
  = filter (λ u, u ≠ userId) (occupants st callId).
Proof.
  unfold occupants, handleLeave.
  destruct (rooms st !! callId) as [room|] eqn:Hroom; [|simpl; by rewrite Hroom].
  rewrite <- Map_delete_keys. case_bool_decide as Hempty; simpl.
  - rewrite lookup_delete_eq.
    by destruct (Map_delete userId (participants room)).
  - by rewrite lookup_insert_eq.
Qed.

(** X9.  Leaving removes the named identity from the room of the named call
    and nobody else: the occupants of that call are the former ones without
    the identity, in the same order, the occupants of every other call are
    unchanged, and nothing stored for a socket changes (the call identifier
    stored on the socket that joined stays). *)
Theorem leave_removes_one_identity (st : Service) (callId userId : string) :
  let st' := (handleLeave st callId userId).1 in
  occupants st' callId = filter (λ u, u ≠ userId) (occupants st callId)
  ∧ (∀ c, c ≠ callId → occupants st' c = occupants st c)
  ∧ sockets st' = sockets st.
Proof.
  intros st'. split; [apply handleLeave_occupants|split].
  - intros c Hne. unfold st', occupants. by rewrite handleLeave_other_rooms.
  - apply handleLeave_sockets.
Qed.

(** X10.  Joining and then leaving puts the directory back: for an identity
    that is not in the room of the call, the rooms after [handleJoin]
    followed by [handleLeave] are the rooms before, whether the join was
    admitted (also when it had to create the room) or refused because the
    room was full. *)
Theorem join_then_leave_restores_rooms (st : Service) (ws : WebSocket)
    (callId userId : string) :
  rooms_ok st →
  userId ∉ occupants st callId →
  rooms (handleLeave (handleJoin st ws callId userId).1 callId userId).1 = rooms st.
Proof.
  intros Hok Hnew. unfold occupants in Hnew.
  destruct (rooms st !! callId) as [room|] eqn:Hroom.
  - destruct (Hok _ _ Hroom) as (_ & Hne & _ & _).
    destruct (decide (2 ≤ length (participants room))) as [Hfull|Hfree].
    + rewrite (handleJoin_full _ _ _ _ _ Hroom Hnew Hfull). simpl.
      by rewrite (handleLeave_absent _ _ _ _ Hroom Hne Hnew).
    + rewrite (handleJoin_admit _ _ _ _ room) by (done || lia). simpl.
      unfold handleLeave. simpl. rewrite lookup_insert_eq. simpl.
      assert (Hdel : Map_delete userId (participants room ++ [(userId, ws)])
                     = participants room).
      { unfold Map_delete. rewrite filter_app, filter_cons_False, app_nil_r
          by (simpl; tauto).
        by apply Map_delete_absent. }
      rewrite Hdel. rewrite bool_decide_eq_false_2
        by (by destruct (participants room)).
      simpl. rewrite insert_insert_eq.
      assert (Hsame : set_participants
                        (set_participants room (participants room ++ [(userId, ws)]))
                        (participants room) = room) by by destruct room.
      rewrite Hsame. by apply insert_id.
  - rewrite handleJoin_create by done. simpl.
    erewrite handleLeave_last; [|simpl; apply lookup_insert_eq|done].
    simpl. rewrite delete_insert_eq. by apply delete_id.
Qed.

Lemma join_then_leave_restores_rooms_witness :
  let st := (run initial U1_joined).1 in
  rooms (handleLeave (handleJoin st 2 "C1" "U2").1 "C1" "U2").1 = rooms st.
Proof.
  intros st. apply join_then_leave_restores_rooms.
  - apply reachable_consistent, (reachable_run initial U1_joined), reachable_initial.
  - apply (bool_decide_unpack _). vm_compute. exact I.
Defined.

(** ** Closing an occupant's socket *)

(** X11.  The [close] event of a stored socket that is not yet closed marks
    it closed.  If a non-empty call identifier is stored on the socket, its
    identity leaves the room of that call, every other room stays as it is,
    and all that is written is [user-left] with that identity, on open
    sockets other than the closing one.  If the stored call identifier is
    the empty string, nothing is left and nothing is written. *)
Theorem close_leaves_the_stored_call (env : Env) (st : Service) (ws : WebSocket)
    (sock : Socket) (callId : string) :
  sockets st !! ws = Some sock →
  readyState sock ≠ CLOSED →
  ws_callId sock = Some callId →
  authenticatedUserId sock ≠ ""%string →
  let userId := authenticatedUserId sock in
  let st' := (step env st (close ws)).1 in
  readyState <$> sockets st' !! ws = Some CLOSED
  ∧ (callId ≠ ""%string →
       occupants st' callId = filter (λ u, u ≠ userId) (occupants st callId)
       ∧ (∀ c, c ≠ callId → rooms st' !! c = rooms st !! c)
       ∧ (∀ e, e ∈ (step env st (close ws)).2 →
            ∃ w, w ≠ ws ∧ is_open st w ∧ e = ws_send w (user_left userId)))
  ∧ (callId = ""%string →
       rooms st' = rooms st ∧ (step env st (close ws)).2 = []).
Proof.
  intros Hws Hstate Hcall Hid userId st'. unfold st'. simpl. rewrite Hws.
  rewrite bool_decide_eq_false_2 by done.
  unfold handleDisconnect. simpl. rewrite lookup_insert_eq. simpl. rewrite Hcall.
  set (st0 := {| rooms := rooms st;
                 sockets := <[ws:=set_readyState CLOSED sock]> (sockets st) |}).
  assert (Hu : truthy (authenticatedUserId sock) = true).
  { unfold truthy. by rewrite bool_decide_eq_false_2. }
  rewrite Hu, andb_true_r.
  split; [|split].
  - destruct (truthy callId); simpl; [rewrite handleLeave_sockets|];
      simpl; by rewrite lookup_insert_eq.
  - intros Hc. unfold truthy. rewrite bool_decide_eq_false_2 by done. simpl.
    split; [apply (handleLeave_occupants st0)|]. split.
    + intros c Hne. by rewrite handleLeave_other_rooms.
    + intros e (u & w & _ & _ & Hopen & ->)%handleLeave_writes.
      exists w. unfold is_open in *. simpl in Hopen.
      rewrite lookup_insert in Hopen. case_decide as Heq; [done|].
      by repeat split.
  - intros ->. done.
Qed.

Lemma close_leaves_the_stored_call_witness :
  let st := (run initial both_joined).1 in
  let st' := (step registry_C1 st (close 2)).1 in
  readyState <$> sockets st' !! 2 = Some CLOSED
  ∧ occupants st' "C1" = filter (λ u, u ≠ "U2"%string) (occupants st "C1").
Proof.
  intros st st'.
  destruct (close_leaves_the_stored_call registry_C1 st 2
              {| authenticatedUserId := "U2"; ws_callId := Some "C1"%string;
                 readyState := OPEN |} "C1") as (H1 & H2 & _).
  - vm_compute; reflexivity.
  - discriminate.
  - reflexivity.
  - discriminate.
  - split; [exact H1|]. apply H2. discriminate.
Defined.

(** ** Who gets into a room *)

(** X12.  While the registry stays as it is, a room only ever holds
    identities the registry designates for its call: every occupant, in every
    state reached, is the initiator or the participant of the call, so a room
    never holds an identity outside those two. *)
Theorem rooms_hold_designated_identities (env : Env) (st : Service)
    (callId userId : string) :
  reachable_in env st →
  userId ∈ occupants st callId →
  ∃ videoCall, getVideoCall env callId = Resolved (Some videoCall)
               ∧ (initiatorId videoCall = Some userId
                  ∨ participantId videoCall = Some userId).
Proof.
  intros Hst Hin. unfold occupants in Hin.
  destruct (rooms st !! callId) as [room|] eqn:Hroom; [|by apply elem_of_nil in Hin].
  apply list_elem_of_fmap in Hin as [[u w] [-> Hin]].
  destruct (reachable_in_designated _ _ Hst _ _ _ _ Hroom Hin)
    as (videoCall & Hcall & Hauth).
  exists videoCall. split; [done|]. simpl.
  destruct (decide (initiatorId videoCall = Some u)) as [|Hi]; [by left|].
  destruct (decide (participantId videoCall = Some u)) as [|Hp]; [by right|].
  by rewrite (proj2 (authorized_false videoCall u) (conj Hi Hp)) in Hauth.
Qed.

Lemma rooms_hold_designated_identities_witness :
  ∃ videoCall, getVideoCall registry_C1 "C1" = Resolved (Some videoCall)
               ∧ (initiatorId videoCall = Some "U2"%string
                  ∨ participantId videoCall = Some "U2"%string).
Proof.
  apply (rooms_hold_designated_identities registry_C1
           (run initial both_joined).1 "C1" "U2").
  - apply (reachable_in_run registry_C1 initial
             [connection 1 (Some "U1"%string);
              message 1 (Some (envelope "join" "C1" None));
              connection 2 (Some "U2"%string);
              message 2 (Some (envelope "join" "C1" None))]).
    apply reachable_in_initial.
  - vm_compute. right. left.
Defined.

(** * Tokens *)

(** X13.  The tokens the application issues do not open the signaling
    endpoint.  [generateToken] signs a payload with the claims [id],
    [username], [email] and [role]; [authenticateWebSocket] asks the verified
    payload for [userId].  So, for any token library whose [verify] returns
    the [userId] claim that was signed (none, if none was), a connection that
    presents a token made by [generateToken] is not authenticated, whatever
    the secret: it is closed with code 1008 and never stored. *)
Theorem issued_tokens_are_refused (jwt : Jwt) (registry : string → Lookup)
    (secret : option string) (user : User) (st : Service) (ws : WebSocket) :
  (∀ payload s s' decoded,
     verify jwt (sign jwt payload s) s' = Some decoded →
     decoded !! "userId"%string = payload !! "userId"%string) →
  let env := signaling_env jwt registry secret in
  let token := generateToken jwt secret user in
  authenticateWebSocket env token = None
  ∧ ∃ reason, on_connection env st ws (Some token) = (st, [ws_close ws 1008 reason]).
Proof.
  intros Hjwt env token.
  assert (Hauth : authenticateWebSocket env token = None).
  { unfold authenticateWebSocket, env, token, generateToken. simpl.
    destruct secret as [s|]; [|done]. destruct (negb (truthy s)); [done|].
    destruct (verify jwt _ s) as [decoded|] eqn:Hv; [|done]. simpl.
    rewrite (Hjwt _ _ _ _ Hv). by simplify_map_eq. }
  split; [done|]. unfold on_connection. rewrite Hauth.
  destruct (negb (truthy token)); eauto.
Qed.

Lemma issued_tokens_are_refused_witness :
  authenticateWebSocket (signaling_env toy_jwt (getVideoCall registry_C1) (Some "s3cret"%string))
    (generateToken toy_jwt (Some "s3cret"%string)
       {| user_id := "U1"; user_username := "u1"; user_email := "u1@x.org";
          user_role := "doctor" |})
  = None.
Proof.
  apply (issued_tokens_are_refused toy_jwt (getVideoCall registry_C1)
           (Some "s3cret"%string)
           {| user_id := "U1"; user_username := "u1"; user_email := "u1@x.org";
              user_role := "doctor" |} initial 1).
  intros payload s s' decoded. unfold toy_jwt. simpl.
  destruct (payload !! "userId"%string) as [u|] eqn:Hu.
  - intros [= <-]. by rewrite lookup_singleton_eq.
  - intros [= <-]. by rewrite lookup_empty.
Defined.

(** * Calls *)

Lemma designates_dec_false row userId :
  bool_decide (row_initiatorId row ≠ Some userId)
  && bool_decide (row_participantId row ≠ Some userId) = false →
  designates row userId.
Proof.
  unfold designates. intros [H|H]%andb_false_iff; apply bool_decide_eq_false in H.
  - left. by destruct (decide (row_initiatorId row = Some userId)).
  - right. by destruct (decide (row_participantId row = Some userId)).
Qed.

Lemma status_dec_false (s s0 : CallStatus) : bool_decide (s ≠ s0) = false → s = s0.
Proof. intros H%bool_decide_eq_false. by destruct (decide (s = s0)). Qed.

(** A request whose checks pass read a row that designates its user and has
    the status the request needs; a cancel was asked by the initiator. *)
Lemma checks_passed db req :
  checks db req = None →
  ∃ row, db !! request_id req = Some row
         ∧ designates row (request_user req)
         ∧ row_status row = required_status req
         ∧ (written_status req = cancelled →
            row_initiatorId row = Some (request_user req)).
Proof.
  destruct req as [id u|id u duration notes|id u]; simpl;
    [unfold startCall_checks|unfold endCall_checks|unfold cancelCall_checks];
    unfold storage_getVideoCall; (destruct (db !! id) as [row|]; [|done]).
  - destruct (_ && _) eqn:Hdes; [done|]. apply designates_dec_false in Hdes.
    destruct (bool_decide _) eqn:Hst; [done|]. apply status_dec_false in Hst.
    intros _. by exists row.
  - destruct (_ && _) eqn:Hdes; [done|]. apply designates_dec_false in Hdes.
    destruct (bool_decide _) eqn:Hst; [done|]. apply status_dec_false in Hst.
    intros _. by exists row.
  - destruct (bool_decide (row_initiatorId row ≠ Some u)) eqn:Hini; [done|].
    apply bool_decide_eq_false in Hini.
    assert (Hi : row_initiatorId row = Some u)
      by by destruct (decide (row_initiatorId row = Some u)).
    destruct (bool_decide _) eqn:Hst; [done|]. apply status_dec_false in Hst.
    intros _. exists row. repeat split; [by left|done|done].
Qed.

(** What an update does to a row of the table: nothing to the rows of other
    calls; to the row of its call it writes its status and, with it, the
    start instant (start) or the end instant and the duration (end). *)
Lemma update_row now req db id row :
  db !! id = Some row →
  ∃ row', (update now req db).1 !! id = Some row'
          ∧ same_call row row'
          ∧ (is_Some (row_startedAt row) → is_Some (row_startedAt row'))
          ∧ (row' = row
             ∨ id = request_id req
               ∧ row_status row' = written_status req
               ∧ match req with
                 | start_request _ _ =>
                     row_startedAt row' = Some now
                     ∧ row_endedAt row' = row_endedAt row
                     ∧ row_duration row' = row_duration row
                 | end_request _ _ duration _ =>
                     row_startedAt row' = row_startedAt row
                     ∧ row_endedAt row' = Some now
                     ∧ row_duration row' = Some duration
                 | cancel_request _ _ =>
                     row_startedAt row' = row_startedAt row
                     ∧ row_endedAt row' = row_endedAt row
                     ∧ row_duration row' = row_duration row
                 end).
Proof.
  intros Hrow.
  destruct req as [id' u|id' u duration notes|id' u]; simpl;
    [unfold storage_startVideoCall|unfold storage_endVideoCall
    |unfold storage_updateVideoCallStatus];
    (destruct (db !! id') as [row0|] eqn:Hrow0;
     [|exists row; by repeat split; [..|left]]);
    simpl; (destruct (decide (id' = id)) as [->|Hne];
            [|rewrite lookup_insert_ne by done; exists row; by repeat split; [..|left]]);
    rewrite Hrow in Hrow0; injection Hrow0 as <-;
    rewrite lookup_insert_eq; eexists; (split; [done|]); simpl;
    (split; [by repeat split|]); (split; [by eauto|]); right; by repeat split.
Qed.

Lemma update_no_row now req db id :
  db !! id = None → (update now req db).1 !! id = None.
Proof.
  intros Hrow.
  destruct req as [id' u|id' u duration notes|id' u]; simpl;
    [unfold storage_startVideoCall|unfold storage_endVideoCall
    |unfold storage_updateVideoCallStatus];
    (destruct (db !! id') as [row0|] eqn:Hrow0; [|done]);
    simpl; rewrite lookup_insert_ne; (done || congruence).
Qed.

Lemma update_other now req db id :
  id ≠ request_id req → (update now req db).1 !! id = db !! id.
Proof.
  intros Hne.
  destruct req as [id' u|id' u duration notes|id' u]; simpl in *;
    [unfold storage_startVideoCall|unfold storage_endVideoCall
    |unfold storage_updateVideoCallStatus];
    (destruct (db !! id') as [row0|]; [|done]);
    simpl; by rewrite lookup_insert_ne.
Qed.

(** The table and the updates in flight after one event. *)
Lemma call_step_table s ev :
  (table (call_step s ev).1 = table s
   ∧ (in_flight (call_step s ev).1 = in_flight s
      ∨ (∃ now req, ev = request_arrives now req ∧ checks (table s) req = None
                    ∧ in_flight (call_step s ev).1 = in_flight s ++ [(now, req)])
      ∨ (∃ k, in_flight (call_step s ev).1 = delete k (in_flight s))))
  ∨ ∃ k now req, ev = update_lands k ∧ in_flight s !! k = Some (now, req)
                 ∧ table (call_step s ev).1 = (update now req (table s)).1
                 ∧ in_flight (call_step s ev).1 = delete k (in_flight s).
Proof.
  destruct ev as [now req|reason|k|k reason]; simpl.
  - left. destruct (checks (table s) req) eqn:Hc; simpl; [by auto|].
    split; [done|]. right. left. by exists now, req.
  - by auto.
  - destruct (in_flight s !! k) as [[now req]|] eqn:Hk; [|by auto].
    right. exists k, now, req. by destruct (update now req (table s)).
  - left. destruct (in_flight s !! k); simpl; [|by auto].
    split; [done|]. right. right. by exists k.
Qed.

Lemma elem_of_list_delete {A} (l : list A) k x : x ∈ delete k l → x ∈ l.
Proof.
  revert k. induction l as [|y l IH]; intros k; [by destruct k|].
  destruct k as [|k]; simpl; [by right|].
  intros [->|Hx]%elem_of_cons; [by left|right; by eapply IH].
Qed.

Lemma same_call_trans row row' row'' :
  same_call row row' → same_call row' row'' → same_call row row''.
Proof.
  unfold same_call. intros (?&?&?&?&?&?&?) (?&?&?&?&?&?&?).
  repeat split; congruence.
Qed.

Lemma same_call_refl row : same_call row row.
Proof. by repeat split. Qed.

(** A row across one event. *)
Lemma call_step_row s ev id row :
  table s !! id = Some row →
  ∃ row', table (call_step s ev).1 !! id = Some row'
          ∧ same_call row row'
          ∧ (row' = row
             ∨ ∃ k now req, ev = update_lands k
                            ∧ in_flight s !! k = Some (now, req)
                            ∧ request_id req = id
                            ∧ row_status row' = written_status req).
Proof.
  intros Hrow.
  destruct (call_step_table s ev) as [[-> _]|(k & now & req & -> & Hk & -> & _)].
  { exists row. split; [done|]. split; [apply same_call_refl|by left]. }
  destruct (update_row now req (table s) id row Hrow)
    as (row' & Hrow' & Hsame & _ & [->|(-> & Hst & _)]).
  - exists row. split; [done|]. split; [apply same_call_refl|by left].
  - exists row'. split; [done|]. split; [done|]. right. by exists k, now, req.
Qed.

Lemma call_step_no_row s ev id :
  table s !! id = None → table (call_step s ev).1 !! id = None.
Proof.
  intros Hrow.
  destruct (call_step_table s ev) as [[-> _]|(k & now & req & -> & Hk & -> & _)];
    [done|]. by apply update_no_row.
Qed.

(** X15.  Only the two people of a call can change it.  However the reads
    and the updates of the requests interleave, requests made by users a row
    does not designate, and requests for other calls, leave the row exactly
    as it is, whatever they ask and in whatever status the call is. *)
Theorem strangers_cannot_change_a_call (db : gmap string VideoCallRow)
    (evs : list CallEvent) (id : string) (row : VideoCallRow) :
  db !! id = Some row →
  (∀ now req, request_arrives now req ∈ evs → request_id req = id →
              ¬ designates row (request_user req)) →
  table (call_run (calm db) evs) !! id = Some row.
Proof.
  intros Hrow.
  assert (Hgen : ∀ s,
    table s !! id = Some row →
    (∀ r, r ∈ in_flight s → request_id r.2 ≠ id) →
    (∀ now req, request_arrives now req ∈ evs → request_id req = id →
                ¬ designates row (request_user req)) →
    table (call_run s evs) !! id = Some row).
  { clear db Hrow. induction evs as [|ev evs IH]; intros s Hrow Hfly Hevs; [done|].
    simpl. apply IH.
    - destruct (call_step_row s ev id row Hrow)
        as (row' & Hrow' & _ & [->|(k & now & req & _ & Hk & Hid & _)]); [done|].
      destruct (Hfly (now, req)); [by eapply list_elem_of_lookup_2|done].
    - intros r Hr.
      destruct (call_step_table s ev)
        as [[_ [Hsame|[(now & req & -> & Hc & Hadd)|(k & Hdrop)]]]
           |(k & now & req & _ & _ & _ & Hdel)].
      + rewrite Hsame in Hr. by apply Hfly.
      + rewrite Hadd in Hr. apply elem_of_app in Hr as [Hr|Hr]; [by apply Hfly|].
        apply list_elem_of_singleton in Hr as ->. simpl. intros Hid.
        destruct (checks_passed _ _ Hc) as (row0 & Hrow0 & Hdes & _).
        rewrite Hid, Hrow in Hrow0. injection Hrow0 as <-.
        by apply (Hevs now req); [left|..].
      + rewrite Hdrop in Hr. apply elem_of_list_delete in Hr. by apply Hfly.
      + rewrite Hdel in Hr. apply elem_of_list_delete in Hr. by apply Hfly.
    - intros now req Hin. apply (Hevs now). by right. }
  intros Hevs. apply Hgen; [done| |done].
  intros r Hr. by apply elem_of_nil in Hr.
Qed.

Lemma strangers_cannot_change_a_call_witness :
  table (call_run (calm table_C1)
           [ request_arrives 200 (start_request "C1" "U3");
             request_arrives 205 (end_request "C2" "U1" 5 None);
             request_arrives 210 (cancel_request "C1" "U3");
             update_lands 0 ]) !! "C1"%string = Some row_C1.
Proof.
  apply strangers_cannot_change_a_call.
  - apply lookup_singleton_eq.
  - intros now req Hr Hid Hdes.
    repeat (apply elem_of_cons in Hr as [Heq|Hr];
            [try discriminate Heq; injection Heq as -> ->; simpl in Hid;
             first [discriminate Hid | destruct Hdes as [Hd|Hd]; cbv in Hd; discriminate Hd]|]).
    by apply elem_of_nil in Hr.
Defined.

(** X16.  A call gets cancelled only by its initiator, however the requests
    interleave: if a row that was not cancelled is cancelled after the
    events, a cancel request for this call made by the user who is its
    initiator arrived among them. *)
Theorem only_the_initiator_cancels (db : gmap string VideoCallRow)
    (evs : list CallEvent) (id : string) (row row' : VideoCallRow) :
  db !! id = Some row →
  row_status row ≠ cancelled →
  table (call_run (calm db) evs) !! id = Some row' →
  row_status row' = cancelled →
  ∃ now userId, request_arrives now (cancel_request id userId) ∈ evs
                ∧ row_initiatorId row = Some userId.
Proof.
  intros Hrow Hst.
  assert (Hgen : ∀ s r,
    table s !! id = Some r →
    row_initiatorId r = row_initiatorId row →
    row_status r ≠ cancelled →
    (∀ now u, (now, cancel_request id u) ∉ in_flight s) →
    table (call_run s evs) !! id = Some row' →
    row_status row' = cancelled →
    ∃ now userId, request_arrives now (cancel_request id userId) ∈ evs
                  ∧ row_initiatorId row = Some userId).
  { clear db Hrow Hst. induction evs as [|ev evs IH];
      intros s r Hr Hini Hst Hfly Hrow' Hc.
    { simpl in Hrow'. congruence. }
    simpl in Hrow'.
    assert (Hlater : (∃ now userId, request_arrives now (cancel_request id userId) ∈ evs
                                    ∧ row_initiatorId row = Some userId) →
                     ∃ now userId, request_arrives now (cancel_request id userId) ∈ ev :: evs
                                   ∧ row_initiatorId row = Some userId).
    { intros (now & u & Hin & Hu). exists now, u. split; [by right|done]. }
    destruct (call_step_table s ev)
      as [[Htab [Hsame|[(now & req & Hev & Hchk & Hadd)|(k & Hdrop)]]]
         |(k & now & req & Hev & Hk & Htab & Hdel)].
    - (* nothing issued, nothing landed *)
      apply Hlater, (IH (call_step s ev).1 r); try done;
        [by rewrite Htab|by rewrite Hsame].
    - (* an update is issued *)
      destruct (checks_passed _ _ Hchk) as (row0 & Hrow0 & _ & _ & Hcancel).
      destruct req as [id' u|id' u duration notes|id' u];
        try (apply Hlater, (IH (call_step s ev).1 r); try done; [by rewrite Htab|];
             rewrite Hadd; intros n u' [Hin|[=]%list_elem_of_singleton]%elem_of_app;
             by eapply Hfly).
      destruct (decide (id' = id)) as [->|Hne].
      + exists now, u. split; [rewrite Hev; by left|]. simpl in *.
        rewrite Hr in Hrow0. injection Hrow0 as <-. rewrite <- Hini. by apply Hcancel.
      + apply Hlater, (IH (call_step s ev).1 r); try done; [by rewrite Htab|].
        rewrite Hadd. intros n u' [Hin|[=]%list_elem_of_singleton]%elem_of_app;
          [by eapply Hfly|congruence].
    - (* an update fails *)
      apply Hlater, (IH (call_step s ev).1 r); try done; [by rewrite Htab|].
      rewrite Hdrop. intros n u Hin%elem_of_list_delete. by eapply Hfly.
    - (* an update lands *)
      destruct (update_row now req (table s) id r Hr)
        as (r1 & Hr1 & (_ & Hini1 & _) & _ & Hwhat).
      apply Hlater, (IH (call_step s ev).1 r1); try done.
      + by rewrite Htab.
      + congruence.
      + destruct Hwhat as [->|(Hid & Hw & _)]; [done|]. rewrite Hw.
        destruct req as [id' u|id' u duration notes|id' u]; simpl; try done.
        simpl in Hid. subst id'. destruct (Hfly now u).
        by eapply list_elem_of_lookup_2.
      + rewrite Hdel. intros n u Hin%elem_of_list_delete. by eapply Hfly. }
  intros Hrow' Hc. apply (Hgen (calm db) row); try done.
  intros now u Hin. by apply elem_of_nil in Hin.
Qed.

Lemma only_the_initiator_cancels_witness :
  ∃ now userId,
    request_arrives now (cancel_request "C1" userId)
    ∈ [ request_arrives 200 (cancel_request "C1" "U2");
        request_arrives 210 (cancel_request "C1" "U1");
        update_lands 0 ]
    ∧ row_initiatorId row_C1 = Some userId.
Proof.
  eapply (only_the_initiator_cancels table_C1 _ "C1" row_C1).
  - apply lookup_singleton_eq.
  - discriminate.
  - vm_compute. reflexivity.
  - reflexivity.
Defined.

(** What the signaling service reads of a row never changes. *)
Lemma call_run_signaling_view s evs id :
  signaling_view <$> table (call_run s evs) !! id = signaling_view <$> table s !! id.
Proof.
  revert s. induction evs as [|ev evs IH]; intros s; [done|].
  simpl. rewrite IH. destruct (table s !! id) as [row|] eqn:Hrow.
  - destruct (call_step_row s ev id row Hrow) as (row' & -> & (_ & Hi & Hp & _) & _).
    simpl. unfold signaling_view. by rewrite Hi, Hp.
  - by rewrite (call_step_no_row s ev id Hrow).
Qed.

(** X18.  The signaling service does not look at the status of a call: the
    registry answers the same before and after any start, end or cancel
    requests, however they interleave, so a message is handled the same way.
    A designated user can thus join the room of a call that has ended or was
    cancelled. *)
Theorem signaling_ignores_call_status (s : CallDesk) (evs : list CallEvent)
    (env env' : Env) (st : Service) (ws : WebSocket)
    (parsed : option SignalingMessage) :
  getVideoCall env = registry_of (table s) →
  getVideoCall env' = registry_of (table (call_run s evs)) →
  on_message env st ws parsed = on_message env' st ws parsed.
Proof.
  intros He He'.
  assert (Hsame : ∀ id, getVideoCall env id = getVideoCall env' id).
  { intros id. rewrite He, He'. unfold registry_of, storage_getVideoCall.
    by rewrite call_run_signaling_view. }
  unfold on_message, handleMessage.
  destruct (sockets st !! ws); [|done]. destruct parsed as [data|]; [|done].
  simpl. by rewrite Hsame.
Qed.

Lemma signaling_ignores_call_status_witness :
  let st := (run initial [(registry_C1, connection 1 (Some "U1"%string))]).1 in
  on_message (env_of_table table_C1) st 1 (Some (envelope "join" "C1" None))
  = on_message (env_of_table table_C1_ended) st 1 (Some (envelope "join" "C1" None)).
Proof.
  intros st.
  apply (signaling_ignores_call_status (calm table_C1)
           (one_at_a_time [ (200%Z, start_request "C1" "U2");
                            (260%Z, end_request "C1" "U1" 60 None) ]));
    reflexivity.
Defined.

(** The call has ended, and [U1] joins its room all the same. *)
Example join_after_the_call_ended :
  let st := (run initial [(registry_C1, connection 1 (Some "U1"%string))]).1 in
  row_status <$> table_C1_ended !! "C1"%string = Some ended
  ∧ (on_message (env_of_table table_C1_ended) st 1
       (Some (envelope "join" "C1" None))).2
    = [getVideoCall_query "C1"; ws_send 1 (joined "C1" 1)].
Proof. vm_compute. split; reflexivity. Qed.

(** One request served with nothing else between its read and its update. *)
Lemma one_request_row now req s id :
  in_flight s = [] →
  in_flight (call_run s [request_arrives now req; update_lands 0]) = []
  ∧ match table s !! id with
    | Some row =>
        ∃ row', table (call_run s [request_arrives now req; update_lands 0]) !! id
                = Some row'
                ∧ same_call row row'
                ∧ (row' = row ∨ transition (row_status row) (row_status row'))
                ∧ (coherent row → coherent row')
    | None =>
        table (call_run s [request_arrives now req; update_lands 0]) !! id = None
    end.
Proof.
  intros Hcalm. unfold call_run. simpl.
  destruct (checks (table s) req) as [reason|] eqn:Hc; simpl.
  { rewrite Hcalm. simpl. split; [done|].
    destruct (table s !! id) as [row|]; [|done].
    exists row. split; [done|]. split; [apply same_call_refl|]. by auto. }
  rewrite Hcalm. simpl.
  destruct (update now req (table s)) as [db' r] eqn:Hu. simpl. split; [done|].
  replace db' with (update now req (table s)).1 by by rewrite Hu.
  destruct (table s !! id) as [row|] eqn:Hrow; [|by apply update_no_row].
  destruct (update_row now req (table s) id row Hrow)
    as (row' & Hrow' & Hsame & _ & Hwhat).
  exists row'. split; [done|]. split; [done|].
  destruct Hwhat as [->|(-> & Hst & Hfields)]; [by auto|].
  destruct (checks_passed _ _ Hc) as (row0 & Hrow0 & _ & Hreq & _).
  rewrite Hrow in Hrow0. injection Hrow0 as <-.
  split.
  - right. rewrite Hst, Hreq. destruct req; constructor.
  - unfold coherent. rewrite Hst, Hreq.
    destruct req as [id' u|id' u duration notes|id' u]; simpl;
      destruct Hfields as (-> & -> & ->); intros (? & ? & ?); by eauto.
Qed.

(** The rows of the table across requests served one at a time. *)
Lemma one_at_a_time_row reqs s id :
  in_flight s = [] →
  match table s !! id with
  | Some row =>
      ∃ row', table (call_run s (one_at_a_time reqs)) !! id = Some row'
              ∧ same_call row row'
              ∧ rtc transition (row_status row) (row_status row')
              ∧ (coherent row → coherent row')
  | None => table (call_run s (one_at_a_time reqs)) !! id = None
  end.
Proof.
  revert s. induction reqs as [|[now req] reqs IH]; intros s Hcalm.
  { simpl. destruct (table s !! id) as [row|]; [|done].
    exists row. split; [done|]. split; [apply same_call_refl|]. by split. }
  change (call_run s (one_at_a_time ((now, req) :: reqs)))
    with (call_run (call_run s [request_arrives now req; update_lands 0])
            (one_at_a_time reqs)).
  destruct (one_request_row now req s id Hcalm) as [Hcalm1 Hone].
  specialize (IH _ Hcalm1).
  destruct (table s !! id) as [row|].
  - destruct Hone as (row1 & Hrow1 & Hsame1 & Hmove & Hco1).
    rewrite Hrow1 in IH. destruct IH as (row' & Hrow' & Hsame & Hrtc & Hco).
    exists row'. split; [done|]. split; [by eapply same_call_trans|].
    split; [|by auto].
    destruct Hmove as [->|Htr]; [done|by eapply rtc_l].
  - by rewrite Hone in IH.
Qed.

(** A row across any events: it stays, the same call, and its status does
    not come back to [scheduled]. *)
Lemma call_run_row s evs id row :
  table s !! id = Some row →
  ∃ row', table (call_run s evs) !! id = Some row'
          ∧ same_call row row'
          ∧ (row_status row ≠ scheduled → row_status row' ≠ scheduled)
          ∧ (row_status row' = scheduled → row' = row).
Proof.
  revert s row. induction evs as [|ev evs IH]; intros s row Hrow.
  { exists row. split; [done|]. split; [apply same_call_refl|done]. }
  destruct (call_step_row s ev id row Hrow) as (row1 & Hrow1 & Hsame1 & Hwhat).
  destruct (IH _ _ Hrow1) as (row' & Hrow' & Hsame & Hnot & Hsched).
  exists row'. split; [done|]. split; [by eapply same_call_trans|].
  destruct Hwhat as [->|(k & now & req & _ & _ & _ & Hst)]; [done|].
  assert (Hne : row_status row1 ≠ scheduled) by (rewrite Hst; by destruct req).
  split; [by auto|]. intros Hs. by destruct (Hnot Hne).
Qed.

Lemma call_run_no_row s evs id :
  table s !! id = None → table (call_run s evs) !! id = None.
Proof.
  revert s. induction evs as [|ev evs IH]; intros s Hrow; [done|].
  simpl. by apply IH, call_step_no_row.
Qed.

(** An ended or cancelled call with no update in flight stays as it is. *)
Lemma call_run_final s evs id row :
  table s !! id = Some row →
  row_status row = ended ∨ row_status row = cancelled →
  (∀ now req, (now, req) ∈ in_flight s → request_id req ≠ id) →
  table (call_run s evs) !! id = Some row.
Proof.
  revert s. induction evs as [|ev evs IH]; intros s Hrow Hfinal Hquiet; [done|].
  simpl.
  destruct (call_step_table s ev)
    as [[Htab [Hsame|[(now & req & Hev & Hchk & Hadd)|(k & Hdrop)]]]
       |(k & now & req & Hev & Hk & Htab & Hdel)].
  - apply IH; [by rewrite Htab|done|by rewrite Hsame].
  - apply IH; [by rewrite Htab|done|]. rewrite Hadd.
    intros n r [Hin|Hin]%elem_of_app; [by eapply Hquiet|].
    apply list_elem_of_singleton in Hin. injection Hin as -> ->.
    intros Hid. destruct (checks_passed _ _ Hchk) as (row0 & Hrow0 & _ & Hreq & _).
    rewrite Hid, Hrow in Hrow0. injection Hrow0 as <-.
    destruct req; simpl in Hreq; destruct Hfinal; congruence.
  - apply IH; [by rewrite Htab|done|]. rewrite Hdrop.
    intros n r Hin%elem_of_list_delete. by eapply Hquiet.
  - apply IH; [|done|].
    + rewrite Htab, update_other; [done|].
      intros Hid. by eapply Hquiet; [eapply list_elem_of_lookup_2|].
    + rewrite Hdel. intros n r Hin%elem_of_list_delete. by eapply Hquiet.
Qed.

(** X14.  What the start, end and cancel requests can do to the status of a
    call.  However their reads and updates interleave, a row is still there
    afterwards with the same title, initiator, participant, room, schedule,
    purpose and creation instant; a call that has left [scheduled] never
    comes back to it, and a row still [scheduled] was not touched; a call
    that is ended or cancelled while no update is in flight stays exactly as
    it is; no request adds a row.  When each update lands before the next
    request is read, the status only moves along scheduled → active →
    ended and scheduled → cancelled. *)
Theorem call_status_only_advances (db : gmap string VideoCallRow) (id : string) :
  match db !! id with
  | Some row =>
      (∀ evs, ∃ row', table (call_run (calm db) evs) !! id = Some row'
                      ∧ same_call row row'
                      ∧ (row_status row ≠ scheduled → row_status row' ≠ scheduled)
                      ∧ (row_status row' = scheduled → row' = row)
                      ∧ (row_status row = ended ∨ row_status row = cancelled →
                         row' = row))
      ∧ (∀ reqs, ∃ row', table (call_run (calm db) (one_at_a_time reqs)) !! id
                         = Some row'
                         ∧ rtc transition (row_status row) (row_status row'))
  | None => ∀ evs, table (call_run (calm db) evs) !! id = None
  end.
Proof.
  destruct (db !! id) as [row|] eqn:Hrow.
  - split.
    + intros evs.
      destruct (call_run_row (calm db) evs id row Hrow)
        as (row' & Hrow' & Hsame & Hnot & Hsched).
      exists row'. do 4 (split; [done|]).
      intros Hfinal.
      assert (Hkept : table (call_run (calm db) evs) !! id = Some row).
      { apply call_run_final; [done..|]. intros now req Hin.
        by apply elem_of_nil in Hin. }
      congruence.
    + intros reqs.
      pose proof (one_at_a_time_row reqs (calm db) id eq_refl) as H.
      simpl in H. rewrite Hrow in H.
      destruct H as (row' & Hrow' & _ & Hrtc & _). by exists row'.
  - intros evs. by apply call_run_no_row.
Qed.

Lemma call_status_only_advances_witness :
  ∃ row', table (call_run (calm table_C1)
                   (one_at_a_time [ (200%Z, start_request "C1" "U2");
                                    (260%Z, end_request "C1" "U1" 60 None);
                                    (300%Z, cancel_request "C1" "U1") ])) !! "C1"%string
          = Some row'
          ∧ row_status row' = ended
          ∧ rtc transition scheduled (row_status row').
Proof.
  pose proof (call_status_only_advances table_C1 "C1") as H.
  unfold table_C1 in H at 1. rewrite lookup_singleton_eq in H.
  destruct H as [_ H].
  destruct (H [ (200%Z, start_request "C1" "U2");
                (260%Z, end_request "C1" "U1" 60 None);
                (300%Z, cancel_request "C1" "U1") ]) as (row' & Hrow' & Hrtc).
  exists row'. split; [exact Hrow'|]. split; [|exact Hrtc].
  vm_compute in Hrow'. by injection Hrow' as <-.
Defined.

(** Two requests read the scheduled call before the update of either has
    landed: the start lands and the call is active, then the cancel lands
    and the call is cancelled, with its start instant set. *)
Example start_and_cancel_in_flight_together :
  let evs := [ request_arrives 200 (start_request "C1" "U2");
               request_arrives 205 (cancel_request "C1" "U1");
               update_lands 0 ] in
  row_status <$> table (call_run (calm table_C1) evs) !! "C1"%string = Some active
  ∧ (λ row, (row_status row, row_startedAt row))
      <$> table (call_run (calm table_C1) (evs ++ [update_lands 0])) !! "C1"%string
    = Some (cancelled, Some 200%Z).
Proof. vm_compute. split; reflexivity. Qed.

(** A second start that was read while the call was scheduled lands after
    the call has ended: the call is active again, with an end instant. *)
Example start_lands_after_the_end :
  let evs := [ request_arrives 200 (start_request "C1" "U1");
               request_arrives 201 (start_request "C1" "U2");
               update_lands 0;
               request_arrives 260 (end_request "C1" "U1" 60 None);
               update_lands 1 ] in
  row_status <$> table (call_run (calm table_C1) evs) !! "C1"%string = Some ended
  ∧ (λ row, (row_status row, row_startedAt row, row_endedAt row))
      <$> table (call_run (calm table_C1) (evs ++ [update_lands 0])) !! "C1"%string
    = Some (active, Some 201%Z, Some 260%Z).
Proof. vm_compute. split; reflexivity. Qed.

(** The instants of the rows while updates are in flight: every row is
    [settled], and an end that is in flight finds a row with a start
    instant. *)
Lemma call_run_settled s evs :
  map_Forall (λ _, settled) (table s) →
  (∀ now id u duration notes,
     (now, end_request id u duration notes) ∈ in_flight s →
     ∃ row, table s !! id = Some row ∧ is_Some (row_startedAt row)) →
  map_Forall (λ _, settled) (table (call_run s evs)).
Proof.
  revert s. induction evs as [|ev evs IH]; intros s Hok Hends; [done|].
  simpl.
  destruct (call_step_table s ev)
    as [[Htab [Hsame|[(now & req & Hev & Hchk & Hadd)|(k & Hdrop)]]]
       |(k & now & req & Hev & Hk & Htab & Hdel)].
  - apply IH; [by rewrite Htab|]. rewrite Htab, Hsame. exact Hends.
  - apply IH; [by rewrite Htab|]. rewrite Htab, Hadd.
    intros n id u duration notes [Hin|Hin]%elem_of_app; [by eapply Hends|].
    apply list_elem_of_singleton in Hin. injection Hin as -> <-.
    destruct (checks_passed _ _ Hchk) as (row0 & Hrow0 & _ & Hreq & _).
    simpl in Hrow0, Hreq. exists row0. split; [done|].
    pose proof (Hok id row0 Hrow0) as Hs. unfold settled in Hs.
    by rewrite Hreq in Hs.
  - apply IH; [by rewrite Htab|]. rewrite Htab, Hdrop.
    intros n id u duration notes Hin%elem_of_list_delete. by eapply Hends.
  - apply IH.
    + rewrite Htab. intros id row' Hrow'.
      destruct (table s !! id) as [row|] eqn:Hrow;
        [|by rewrite (update_no_row now req (table s) id Hrow) in Hrow'].
      destruct (update_row now req (table s) id row Hrow)
        as (row1 & Hrow1 & _ & _ & Hwhat).
      rewrite Hrow1 in Hrow'. injection Hrow' as <-.
      destruct Hwhat as [->|(-> & Hst & Hfields)]; [by apply (Hok id)|].
      unfold settled. rewrite Hst.
      destruct req as [id' u|id' u duration notes|id' u]; simpl; [|
        |done].
      * destruct Hfields as (-> & _). by eauto.
      * destruct Hfields as (-> & -> & ->).
        destruct (Hends now id' u duration notes) as (row2 & Hrow2 & Hstart);
          [by eapply list_elem_of_lookup_2|].
        simpl in Hrow. rewrite Hrow in Hrow2. injection Hrow2 as <-. by eauto.
    + rewrite Htab, Hdel.
      intros n id u duration notes Hin%elem_of_list_delete.
      destruct (Hends n id u duration notes Hin) as (row & Hrow & Hstart).
      destruct (update_row now req (table s) id row Hrow)
        as (row1 & Hrow1 & _ & Hkeeps & _).
      exists row1. by auto.
Qed.

Lemma coherent_settled row : coherent row → settled row.
Proof.
  unfold coherent, settled. destruct (row_status row); [done| |done|done].
  by intros (? & _).
Qed.

(** X17.  The instants of a call and its status.  Take a table in which
    the instants of every row fit its status: a scheduled or cancelled call
    has no start, no end and no duration, an active call has a start only,
    an ended call has all three.  However the reads and updates of the
    requests interleave, a scheduled call still has none of the three, an
    active call has a start, and an ended call has all three (a cancelled
    call can have a start, and an active call an end, when requests were in
    flight together).  When each update lands before the next request is
    read, the instants of every row fit its status afterwards as before. *)
Theorem call_instants_fit_status (db : gmap string VideoCallRow) :
  map_Forall (λ _, coherent) db →
  (∀ evs, map_Forall (λ _, settled) (table (call_run (calm db) evs)))
  ∧ (∀ reqs, map_Forall (λ _, coherent)
               (table (call_run (calm db) (one_at_a_time reqs)))).
Proof.
  intros Hok. split.
  - intros evs. apply call_run_settled.
    + intros id row Hrow. by apply coherent_settled, (Hok id).
    + intros now id u duration notes Hin. by apply elem_of_nil in Hin.
  - intros reqs id row' Hrow'.
    pose proof (one_at_a_time_row reqs (calm db) id eq_refl) as H.
    simpl in H. destruct (db !! id) as [row|] eqn:Hrow; [|congruence].
    destruct H as (row1 & Hrow1 & _ & _ & Hco).
    rewrite Hrow1 in Hrow'. injection Hrow' as <-. by apply Hco, (Hok id).
Qed.

Lemma call_instants_fit_status_witness :
  map_Forall (λ _, settled)
    (table (call_run (calm table_C1)
              [ request_arrives 200 (start_request "C1" "U2");
                request_arrives 205 (cancel_request "C1" "U1");
                update_lands 1; update_lands 0 ]))
  ∧ map_Forall (λ _, coherent)
      (table (call_run (calm table_C1)
                (one_at_a_time [ (200%Z, start_request "C1" "U2");
                                 (260%Z, end_request "C1" "U1" 60 None) ]))).
Proof.
  destruct (call_instants_fit_status table_C1) as [Hany Hseq].
  - apply map_Forall_singleton. vm_compute. auto.
  - split; [apply Hany|apply Hseq].
Defined.

(** The instants of a row need not fit its status when a start and a cancel
    were in flight together: the call is cancelled and has a start. *)
Example cancelled_call_with_a_start :
  ∃ row, table (call_run (calm table_C1)
                  [ request_arrives 200 (start_request "C1" "U2");
                    request_arrives 205 (cancel_request "C1" "U1");
                    update_lands 0; update_lands 0 ]) !! "C1"%string = Some row
         ∧ coherent row_C1 ∧ settled row ∧ ¬ coherent row.
Proof.
  eexists. split; [vm_compute; reflexivity|].
  split; [by vm_compute|]. split; [by vm_compute|].
  vm_compute. by intros [[=] _].
Qed.
(** * Leaving a room one is not in *)

(** X19.  [handleLeave] does not ask whether the identity is in the room.
    For an identity that is not, in a state the service can reach, nothing
    changes, yet every occupant whose socket is open is written [user-left]
    with that identity; when the call has no room nothing is written. *)
Theorem leave_of_an_absent_identity (st : Service) (callId userId : string) :
  reachable st →
  userId ∉ occupants st callId →
  handleLeave st callId userId
  = (st, (λ w, ws_send w (user_left userId)) <$> open_sockets st callId).
Proof.
  intros [Hok _]%reachable_consistent Hout. unfold occupants, open_sockets in *.
  destruct (rooms st !! callId) as [room|] eqn:Hroom.
  - destruct (Hok _ _ Hroom) as (_ & Hne & _ & _).
    rewrite (handleLeave_absent _ _ _ _ Hroom Hne Hout). f_equal.
    unfold broadcastToRoom. rewrite Hroom, <- list_fmap_compose. f_equal.
    apply list_filter_iff. intros [u w]. simpl. split; [tauto|by split].
  - by rewrite handleLeave_no_room.
Qed.

Lemma leave_of_an_absent_identity_witness :
  let st := (run initial both_joined).1 in
  handleLeave st "C1" "U3"
  = (st, [ws_send 1 (user_left "U3"); ws_send 2 (user_left "U3")]).
Proof.
  intros st. rewrite leave_of_an_absent_identity.
  - vm_compute. reflexivity.
  - apply (reachable_run initial both_joined), reachable_initial.
  - apply (bool_decide_unpack _). vm_compute. exact I.
Defined.

(** * The claimed sender, and the identity the handlers use *)

Lemma handleJoin_occupants st ws callId userId :
  userId ∉ occupants st callId →
  length (occupants st callId) < 2 →
  occupants (handleJoin st ws callId userId).1 callId
  = occupants st callId ++ [userId].
Proof.
  unfold occupants. destruct (rooms st !! callId) as [room|] eqn:Hroom.
  - rewrite length_fmap. intros Hnew Hfree.
    rewrite (handleJoin_admit _ _ _ _ room) by done. simpl.
    rewrite lookup_insert_eq. simpl. by rewrite fmap_app.
  - intros _ _. rewrite handleJoin_create by done. simpl.
    by rewrite lookup_insert_eq.
Qed.

(** C3.  The [userId] member of an envelope plays no part.  Two runs whose
    events differ only in the [userId] members of the envelopes received end
    in the same state and perform the same actions.  And what a message does
    is decided by the identity stored for its socket when it connected,
    whatever [userId] the envelope claims: access is denied exactly when the
    call does not designate the stored identity; otherwise [handleJoin],
    [relaySignalingMessage] or [handleLeave] is run with the stored identity,
    so that a join adds that identity to the room, every notification and
    every relayed envelope written names it, and a leave removes it. *)
Theorem claimed_userId_ignored :
  (∀ st evs evs',
     Forall2 (λ e e', e.1 = e'.1 ∧ same_event e.2 e'.2) evs evs' →
     run st evs = run st evs')
  ∧ (∀ env st ws sock data videoCall,
       sockets st !! ws = Some sock →
       getVideoCall env (msg_callId data) = Resolved (Some videoCall) →
       let userId := authenticatedUserId sock in
       let callId := msg_callId data in
       let query := getVideoCall_query callId in
       let st' := (on_message env st ws (Some data)).1 in
       let out := (on_message env st ws (Some data)).2 in
       (* authorization *)
       (initiatorId videoCall ≠ Some userId ∧ participantId videoCall ≠ Some userId →
        st' = st ∧ out = [query; ws_send ws (error "Access denied to this call")])
       ∧ (initiatorId videoCall = Some userId ∨ participantId videoCall = Some userId →
          (* join *)
          (msg_type data = "join"%string →
           st' = (handleJoin st ws callId userId).1
           ∧ out = query :: (handleJoin st ws callId userId).2
           ∧ (userId ∉ occupants st callId → length (occupants st callId) < 2 →
              occupants st' callId = occupants st callId ++ [userId]))
          (* relay stamping *)
          ∧ (negotiation (msg_type data) →
             st' = st
             ∧ out = query :: (relaySignalingMessage st callId userId
                                 (msg_type data) (msg_data data)).2)
          (* leave *)
          ∧ (msg_type data = "leave"%string →
             st' = (handleLeave st callId userId).1
             ∧ out = query :: (handleLeave st callId userId).2
             ∧ occupants st' callId = filter (λ u, u ≠ userId) (occupants st callId)))
       (* every identity written is the stored one *)
       ∧ (∀ w frame u, ws_send w frame ∈ out → frame_identity frame = Some u →
                       u = userId)).
Proof.
  split; [apply run_same_events|].
  intros env st ws sock data videoCall Hws Hcall userId callId query st' out.
  subst userId callId query st' out.
  split; [|split].
  - intros Hnot. apply authorized_false in Hnot.
    unfold on_message, handleMessage. rewrite Hws. simpl.
    rewrite Hcall, Hnot. done.
  - intros Hdes.
    assert (Hauth : authorized videoCall (authenticatedUserId sock) = true).
    { destruct (authorized videoCall (authenticatedUserId sock)) eqn:Ha; [done|].
      apply authorized_false in Ha as [Hi Hp]. by destruct Hdes. }
    rewrite (on_message_authorized _ _ _ _ _ _ Hws Hcall Hauth). simpl.
    split; [|split].
    + intros Hjoin. rewrite dispatch_join by done. simpl.
      split; [done|]. split; [done|]. apply handleJoin_occupants.
    + intros Hneg. rewrite dispatch_negotiation by done. simpl.
      by rewrite relaySignalingMessage_state.
    + intros Hleave. rewrite dispatch_leave by done. simpl.
      split; [done|]. split; [done|]. apply handleLeave_occupants.
  - intros w frame u He Hid.
    pose proof (on_message_writes env st ws sock data _ Hws He) as Hw.
    inversion Hw as [|r|n Hj Hn|u' w' frame' Hne Hocc Hopen Hframe]; subst;
      simpl in *; [done..|].
    destruct Hframe as [[_ ->]|[[_ ->]|[_ ->]]]; simpl in Hid; congruence.
Qed.

Lemma claimed_userId_ignored_witness :
  let st := (run initial both_joined).1 in
  let claiming_U2 :=
    {| msg_type := "offer"; msg_callId := "C1"; msg_userId := "U2";
       msg_data := None |} in
  run initial (both_joined ++ [(registry_C1, message 1 (Some claiming_U2))])
  = run initial (both_joined ++ [(registry_C1, message 1 (Some (envelope "offer" "C1" None)))])
  ∧ (on_message registry_C1 st 1 (Some claiming_U2)).2
    = [getVideoCall_query "C1"; ws_send 2 (relayed "offer" None "U1")].
Proof.
  intros st claiming_U2. destruct claimed_userId_ignored as [Hruns Huses]. split.
  - apply Hruns. unfold both_joined, U1_joined. simpl.
    repeat (constructor; [split; [reflexivity|apply same_other]|]).
    constructor; [|constructor].
    split; [reflexivity|]. apply same_envelopes. by repeat split.
  - destruct (Huses registry_C1 st 1
                {| authenticatedUserId := "U1"; ws_callId := Some "C1"%string;
                   readyState := OPEN |} claiming_U2 call_C1)
      as (_ & Hdes & _); [vm_compute; reflexivity|reflexivity|].
    destruct Hdes as (_ & Hrelay & _); [by left|].
    destruct Hrelay as [_ ->]; [left; reflexivity|].
    vm_compute. reflexivity.
Defined.
